(** * N-gram text generation (text_gen.py): a shallow embedding

    The Python module builds unigram, bigram and trigram models from a list
    of words and generates random text from them.  This file embeds the
    functions of [text_gen.py] and proves properties of them.

    Modelling conventions.
    - A Python [dict] is a [gmap]; only dictionaries keyed by words are ever
      enumerated by the program, and the (unspecified) enumeration order of
      Python 2 dictionaries is a parameter [enum] of the development, only
      known to list every item of the dictionary exactly once.
    - A Python [float] is an IEEE 754 binary64 number ([spec_float] at
      precision 53): sums, differences and quotients round to nearest, and
      the conversion of an integer too large for a float raises
      OverflowError.
    - [random.random()] reads the next cell of a tape [rand : nat -> float]; the
      position on the tape is the state threaded through generation.
    - Exceptions are values of [error]; a computation returns a [result]. *)

From Stdlib Require Import ZArith QArith Lia Ascii SpecFloat.
From stdpp Require Import base option list gmap fin_maps strings.

Local Open Scope Z_scope.

(** ** Exceptions and the two monads *)

Inductive error : Type :=
  | KeyError            (* d[k] with k not a key of d *)
  | AssertionError      (* a failed assert statement *)
  | ZeroDivisionError   (* x / float(0) *)
  | OverflowError.      (* float(n) with n too large for a float *)

Inductive result (A : Type) : Type :=
  | Ok (a : A)
  | Err (e : error).
Arguments Ok {A} a.
Arguments Err {A} e.

Global Instance result_ret : MRet result := @Ok.
Global Instance result_bind : MBind result := λ A B f m,
  match m with
  | Ok a => f a
  | Err e => Err e
  end.

(** Computations that read the random tape: the state is the position of
    the next unread cell. *)
Definition M (A : Type) : Type := nat → result (A * nat).

Global Instance M_ret : MRet M := λ A a i, Ok (a, i).
Global Instance M_bind : MBind M := λ A B f m i,
  match m i with
  | Ok (a, j) => f a j
  | Err e => Err e
  end.

Definition lift {A} (r : result A) : M A := λ i,
  match r with
  | Ok a => Ok (a, i)
  | Err e => Err e
  end.

(** [d[k]] *)
Definition getitem `{Countable K} {V} (d : gmap K V) (k : K) : result V :=
  match d !! k with
  | Some v => Ok v
  | None => Err KeyError
  end.

(** [assert b] *)
Definition assert (b : bool) : result unit :=
  if b then Ok tt else Err AssertionError.

(** ** Floats

    A Python [float] is a binary64 number: a significand of 53 bits and
    exponents below 1024.  Every operation returns the float nearest to
    the exact result, ties to even. *)

Definition float : Type := spec_float.

Definition prec : Z := 53.
Definition emax : Z := 1024.

(** [x + y], [x - y], [x / y], [abs(x)], [x < y] and [x <= y] on floats *)
Definition fadd : float → float → float := SFadd prec emax.
Definition fsub : float → float → float := SFsub prec emax.
Definition fdiv : float → float → float := SFdiv prec emax.
Definition fabs : float → float := SFabs.
Definition flt : float → float → bool := SFltb.
Definition fle : float → float → bool := SFleb.

(** The float nearest to the integer [n]. *)
Definition round_int (n : Z) : float := binary_normalize prec emax n 0 false.

(** The least integer whose nearest float is infinite. *)
Definition float_overflow : Z := 2 ^ 1024 - 2 ^ 970.

(** [float(n)], and the conversion of the integer operand of a division
    by a float: OverflowError when [n] is too large for a float. *)
Definition float_of_int (n : Z) : result float :=
  if decide (float_overflow ≤ Z.abs n) then Err OverflowError
  else Ok (round_int n).

(** The integer [0] as the left operand of a float addition, and the
    literals [1.0] and [.000001]. *)
Definition float_zero : float := S754_zero false.
Definition float_one : float := S754_finite false 4503599627370496 (-52).
Definition tolerance : float := S754_finite false 4722366482869645 (-72).

(** The quotient of two small integers, to write float literals. *)
Definition ratio (a b : Z) : float := fdiv (round_int a) (round_int b).

(** The rational number that a finite float stands for. *)
Definition float_value (x : float) : Q :=
  match x with
  | S754_finite s m e =>
      let n := if s then Z.neg m else Z.pos m in
      if decide (0 ≤ e) then inject_Z (n * 2 ^ e)
      else n # Z.to_pos (2 ^ (- e))
  | _ => 0%Q
  end.

(** [x] is a finite float that is not negative. *)
Definition finite_nonneg (x : float) : bool :=
  match x with
  | S754_zero _ => true
  | S754_finite s _ _ => negb s
  | _ => false
  end.

(** [s.rstrip()]: drop the trailing white space of [s]. *)
Fixpoint rstrip (s : string) : string :=
  match s with
  | "" => ""
  | String a s' =>
      match rstrip s' with
      | "" => if Ascii.is_space a then "" else String a ""
      | t => String a t
      end
  end.

(** ** [text_to_list]

    Opening and reading the file is outside the embedding: [text_to_list]
    is modelled on the text that [handle.read()] returns. *)

(** [string.punctuation] *)
Definition punctuation : list ascii :=
  [ "!"; "034"; "#"; "$"; "%"; "&"; "'"; "("; ")"; "*"; "+"; ","; "-"; "."; "/";
    ":"; ";"; "<"; "="; ">"; "?"; "@"; "["; "\"; "]"; "^"; "_"; "`";
    "{"; "|"; "}"; "~" ]%char.

(** The effect of [str.lower()] on one character. *)
Definition lower_char (a : ascii) : ascii :=
  let n := N_of_ascii a in
  if ((65 <=? n) && (n <=? 90))%N then ascii_of_N (n + 32) else a.

Fixpoint string_map (f : ascii → ascii) (s : string) : string :=
  match s with
  | "" => ""
  | String a s' => String (f a) (string_map f s')
  end.

(** [s.lower()] *)
Definition lower (s : string) : string := string_map lower_char s.

(** [string.maketrans(frm, to)]: the table that sends [frm[i]] to [to[i]]
    and every other character to itself; a later position overrides an
    earlier one. *)
Definition maketrans (frm to : list ascii) : ascii → ascii :=
  foldl (λ table ft c, if Ascii.eqb c ft.1 then ft.2 else table c) id (zip frm to).

(** [s.translate(table)] *)
Definition translate (s : string) (table : ascii → ascii) : string :=
  string_map table s.

(** [text_to_list], from the text read from the file. *)
Definition text_to_list (contents : string) : list string :=
  let text := lower contents in
  let text :=
    translate text
      (maketrans punctuation (replicate (length punctuation) " "%char)) in
  String.words text.

(** ** Vocabulary of the statements *)

(** The total of all counts of a count table. *)
Definition total_count (counts : gmap string Z) : Z :=
  foldr Z.add 0 (map_to_list counts).*2.

(** Each count divided by the total of all counts. *)
Definition normalized (counts : gmap string Z) : gmap string float :=
  (λ c, fdiv (round_int c) (round_int (total_count counts))) <$> counts.

(** A count table as the model builders produce them: not empty, and every
    count positive. *)
Definition count_table (counts : gmap string Z) : Prop :=
  counts ≠ ∅ ∧ map_Forall (λ _ c, 0 < c) counts.

(** A probability distribution: finite values that are not negative and
    whose sum, as rational numbers, is 1. *)
Definition valid_distribution (distribution : gmap string float) : Prop :=
  map_Forall (λ _ p, finite_nonneg p = true) distribution ∧
  (foldr Qplus 0 (float_value <$> (map_to_list distribution).*2) == 1)%Q.

(** The running totals of a loop that adds the values [xs] to [total] one
    after the other. *)
Fixpoint running_totals (total : float) (xs : list float) : list float :=
  match xs with
  | [] => []
  | x :: xs' => fadd total x :: running_totals (fadd total x) xs'
  end.

(** A word as [text_to_list] produces them: not empty, no white space. *)
Fixpoint no_space (w : string) : bool :=
  match w with
  | "" => true
  | String a w' => negb (Ascii.is_space a) && no_space w'
  end.

Definition is_word (w : string) : bool :=
  match w with
  | "" => false
  | _ => no_space w
  end.

(** The text obtained by appending each word followed by one space. *)
Definition join_words (ws : list string) : string :=
  foldr (λ w text, w +:+ " " +:+ text) "" ws.

(** Count tables per context, as the model builders hold them. *)
Definition count_tables `{Countable K} (counts : gmap K (gmap string Z)) : Prop :=
  map_Forall (λ _ table, count_table table) counts.

(** [w] is an item of one of the distributions of [model]. *)
Definition model_word `{Countable K} (model : gmap K (gmap string float)) (w : string) : Prop :=
  ∃ context distribution, model !! context = Some distribution ∧ w ∈ dom distribution.

(** Every item of every distribution of [model] is a word. *)
Definition model_of_words `{Countable K} (model : gmap K (gmap string float)) : Prop :=
  ∀ w, model_word model w → is_word w = true.

(** Every table of [counts] has a total in the range of a float. *)
Definition in_range `{Countable K} (counts : gmap K (gmap string Z)) : bool :=
  bool_decide (map_Forall (λ _ table, total_count table < float_overflow) counts).

(** The number of occurrences of [x] in [l]. *)
Definition occurrences `{EqDecision A} (x : A) (l : list A) : Z :=
  Z.of_nat (length (filter (λ y, y = x) l)).

(** The count of [w] under [context] in [counts], 0 when there is none. *)
Definition count_of `{Countable K} (counts : gmap K (gmap string Z))
    (context : K) (w : string) : Z :=
  default 0 (default ∅ (counts !! context) !! w).

(** The total of the counts under [context] in [counts]. *)
Definition total_of `{Countable K} (counts : gmap K (gmap string Z)) (context : K) : Z :=
  total_count (default ∅ (counts !! context)).

(** [b] is an item of the distribution of [a] in the bigram model. *)
Definition follows_bigram (bigrams : gmap string (gmap string float)) (a b : string) : Prop :=
  ∃ distribution, bigrams !! a = Some distribution ∧ b ∈ dom distribution.

(** Every word of [ws] but the first follows the word before it. *)
Fixpoint bigram_chain (bigrams : gmap string (gmap string float)) (ws : list string) : Prop :=
  match ws with
  | [] => True
  | a :: rest =>
      match rest with
      | [] => True
      | b :: _ => follows_bigram bigrams a b ∧ bigram_chain bigrams rest
      end
  end.

(** [w] is an item of the distribution that a step of the loop of
    [random_trigram_text] uses in the context [(a, b)]. *)
Definition follows_trigram (bigrams : gmap string (gmap string float))
    (trigrams : gmap (string * string) (gmap string float)) (a b w : string) : Prop :=
  match trigrams !! (a, b) with
  | Some distribution => w ∈ dom distribution
  | None => follows_bigram bigrams a w
  end.

(** Every word of [ws] but the first two follows the two words before it. *)
Fixpoint trigram_chain (bigrams : gmap string (gmap string float))
    (trigrams : gmap (string * string) (gmap string float)) (ws : list string) : Prop :=
  match ws with
  | [] => True
  | a :: rest =>
      match rest with
      | [] => True
      | b :: rest' =>
          match rest' with
          | [] => True
          | w :: _ =>
              follows_trigram bigrams trigrams a b w ∧
              trigram_chain bigrams trigrams rest
          end
      end
  end.

(** Every word that a bigram model can produce is a key of it. *)
Definition closed_model (bigrams : gmap string (gmap string float)) : Prop :=
  ∀ w, model_word bigrams w → is_Some (bigrams !! w).

(** A character that [text_to_list] leaves in a word: no white space, no
    punctuation, no upper-case letter. *)
Definition clean_char (a : ascii) : bool :=
  negb (Ascii.is_space a) && negb (bool_decide (a ∈ punctuation)) &&
  negb ((65 <=? N_of_ascii a) && (N_of_ascii a <=? 90))%N.

Fixpoint clean_word (w : string) : bool :=
  match w with
  | "" => true
  | String a w' => clean_char a && clean_word w'
  end.

(** Every character of [s] satisfies [P]. *)
Fixpoint all_chars (P : ascii → bool) (s : string) : bool :=
  match s with
  | "" => true
  | String a s' => P a && all_chars P s'
  end.

(** The action of [text_to_list] on one character. *)
Definition normalize_char (a : ascii) : ascii :=
  maketrans punctuation (replicate (length punctuation) " "%char) (lower_char a).

(** One enumeration order, used to run the program on concrete inputs. *)
Definition canonical_enum (V : Type) (d : gmap string V) : list (string * V) :=
  map_to_list d.

(** ** Concrete inputs *)

(** A tape on which every draw is 0.5. *)
Definition half_tape (i : nat) : float := ratio 1 2.

(** The largest float below 1.0, and a tape on which every draw is that
    float. *)
Definition below_one : float := fsub float_one (ratio 1 (2 ^ 53)).
Definition near_one_tape (i : nat) : float := below_one.

(** The count table and the distribution of the docstrings of
    [counts_to_probabilities] and [select_random]. *)
Definition counts_9_1 : gmap string Z := {[ "a" := 9; "b" := 1 ]}.
Definition distribution_9_1 : gmap string float :=
  {[ "a" := ratio 9 10; "b" := ratio 1 10 ]}.

(** A count table whose total is too large for a float. *)
Definition counts_huge : gmap string Z := {[ "a" := 2 ^ 1024 ]}.

(** A count table that is not empty and whose counts sum to 0. *)
Definition counts_zero : gmap string Z := {[ "a" := 0 ]}.

(** The word list of the docstrings of [text_gen.py]. *)
Definition cogito : list string :=
  ["i"; "think"; "therefore"; "i"; "am"; "i"; "think"; "i"; "think"].

(** A word list in which every pair of adjacent words occurs once. *)
Definition abcde : list string := ["a"; "b"; "c"; "d"; "e"].

(** The models of the word list [a b c a b d]. *)
Definition bigrams_abcabd : gmap string (gmap string float) :=
  {[ "a" := {[ "b" := ratio 1 1 ]};
     "b" := {[ "c" := ratio 1 2; "d" := ratio 1 2 ]};
     "c" := {[ "a" := ratio 1 1 ]} ]}.

Definition trigrams_abcabd : gmap (string * string) (gmap string float) :=
  {[ ("a", "b") := {[ "c" := ratio 1 2; "d" := ratio 1 2 ]};
     ("b", "c") := {[ "a" := ratio 1 1 ]};
     ("c", "a") := {[ "b" := ratio 1 1 ]} ]}.

(** The bigram model of [cogito], as in the docstring of
    [calculate_bigrams]. *)
Definition bigrams_cogito : gmap string (gmap string float) :=
  {[ "i" := {[ "am" := ratio 1 4; "think" := ratio 3 4 ]};
     "am" := {[ "i" := ratio 1 1 ]};
     "think" := {[ "i" := ratio 1 2; "therefore" := ratio 1 2 ]};
     "therefore" := {[ "i" := ratio 1 1 ]} ]}.

(** A distribution with a key of probability 0. *)
Definition distribution_zero : gmap string float :=
  {[ "a" := ratio 0 1; "b" := ratio 1 1 ]}.

(** A dictionary whose values sum to 0.5. *)
Definition distribution_half : gmap string float := {[ "a" := ratio 1 2 ]}.

(** Four values whose sum as rational numbers is 1:
    0.5, twice 2^-54, and 0.5 - 2^-53. *)
Definition distribution_tiny : gmap string float :=
  {[ "a" := ratio 1 2;
     "b" := ratio 1 (2 ^ 54);
     "c" := ratio 1 (2 ^ 54);
     "d" := fsub (ratio 1 2) (ratio 1 (2 ^ 53)) ]}.

(** Ten different words. *)
Definition ten_words : list string :=
  ["a"; "b"; "c"; "d"; "e"; "f"; "g"; "h"; "i"; "j"].

(** A word list in which [s] is followed once by each of ten words. *)
Definition s_ten_words : list string :=
  ["s"; "a"; "s"; "b"; "s"; "c"; "s"; "d"; "s"; "e"; "s"; "f"; "s"; "g";
   "s"; "h"; "s"; "i"; "s"; "j"; "s"].

(** The word list [a b a b] and its models. *)
Definition abab : list string := ["a"; "b"; "a"; "b"].

Definition unigrams_abab : gmap string float :=
  {[ "a" := ratio 2 4; "b" := ratio 2 4 ]}.

Definition bigrams_abab : gmap string (gmap string float) :=
  {[ "a" := {[ "b" := ratio 2 2 ]}; "b" := {[ "a" := ratio 1 1 ]} ]}.

Definition trigrams_abab : gmap (string * string) (gmap string float) :=
  {[ ("a", "b") := {[ "a" := ratio 1 1 ]}; ("b", "a") := {[ "b" := ratio 1 1 ]} ]}.

(** Texts of a file for the entry points. *)
Definition huck_the : string := "The cat. The dog? the CAT!".
Definition huck_there : string := "There is a cat. There is a dog; there is a cat".

Section Ngrams.

(** The enumeration order of dictionaries. *)
Variable enum : ∀ {V : Type}, gmap string V → list (string * V).
Hypothesis enum_perm : ∀ V (d : gmap string V), enum d ≡ₚ map_to_list d.

(** The tape read by [random.random()]. *)
Variable rand : nat → float.
Hypothesis rand_range : ∀ i,
  fle float_zero (rand i) = true ∧ flt (rand i) float_one = true.

Definition random : M float := λ i, Ok (rand i, S i).

(** ** [select_random] *)

(** [sum(xs)] on floats: from the integer 0, adding from left to right. *)
Definition fsum (xs : list float) : float := foldl fadd float_zero xs.

(** The [for item in distribution] loop; running off its end reaches
    [assert False]. *)
Fixpoint select_loop (r total : float) (items : list (string * float)) : result string :=
  match items with
  | [] => Err AssertionError
  | (item, p) :: items' =>
      let total := fadd total p in
      if flt r total then Ok item else select_loop r total items'
  end.

(** The test of the assertion of [select_random]. *)
Definition sum_near_one (distribution : gmap string float) : bool :=
  flt (fabs (fsub (fsum (enum distribution).*2) float_one)) tolerance.

(** The float sum of [distribution], added in the order of enumeration,
    passes the assertion of [select_random] and is at least 1.0, so that
    every draw is below it. *)
Definition covers_draws (distribution : gmap string float) : Prop :=
  sum_near_one distribution = true ∧
  fle float_one (fsum (enum distribution).*2) = true.

(** Every distribution of [model] covers the draws. *)
Definition covering_model `{Countable K} (model : gmap K (gmap string float)) : Prop :=
  map_Forall (λ _ distribution, covers_draws distribution) model.

Definition select_random (distribution : gmap string float) : M string :=
  _ ← lift (assert (sum_near_one distribution));
  r ← random;
  lift (select_loop r float_zero (enum distribution)).

(** ** [counts_to_probabilities] *)

Fixpoint sum_counts (total : Z) (items : list (string * Z)) : Z :=
  match items with
  | [] => total
  | (_, c) :: items' => sum_counts (total + c) items'
  end.

(** The second loop: [probabilities[item] = counts[item] / float(total)].
    [float(total)] is evaluated first, then the count is converted for the
    division, which fails when the divisor is 0.0, that is when [total]
    is 0. *)
Fixpoint fill_probabilities (total : Z) (probabilities : gmap string float)
    (items : list (string * Z)) : result (gmap string float) :=
  match items with
  | [] => Ok probabilities
  | (item, c) :: items' =>
      divisor ← float_of_int total;
      dividend ← float_of_int c;
      if decide (total = 0) then Err ZeroDivisionError
      else fill_probabilities total
             (<[item := fdiv dividend divisor]> probabilities) items'
  end.

Definition counts_to_probabilities (counts : gmap string Z) : result (gmap string float) :=
  let total := sum_counts 0 (enum counts) in
  fill_probabilities total ∅ (enum counts).

(** ** Model construction *)

(** The [for word in word_list] loop of [calculate_unigrams]. *)
Fixpoint count_unigrams (unigrams : gmap string Z) (word_list : list string)
    : gmap string Z :=
  match word_list with
  | [] => unigrams
  | word :: word_list' =>
      let unigrams :=
        match unigrams !! word with
        | Some c => <[word := c + 1]> unigrams
        | None => <[word := 1]> unigrams
        end in
      count_unigrams unigrams word_list'
  end.

Definition calculate_unigrams (word_list : list string) : result (gmap string float) :=
  counts_to_probabilities (count_unigrams ∅ word_list).

(** One iteration of the loop of [calculate_bigrams] on the pair [word];
    the state is the pair of dictionaries [(bigrams, tmp)].  The inner
    dictionary [bigrams[word[0]]] is updated in place, which is written
    here as storing the updated dictionary back under [word[0]]. *)
Definition bigram_step
    (st : gmap string (gmap string Z) * gmap string (gmap string float))
    (word : string * string)
    : result (gmap string (gmap string Z) * gmap string (gmap string float)) :=
  let '(bigrams, tmp) := st in
  let bigrams :=
    match bigrams !! word.1 with
    | None => <[word.1 := ∅]> bigrams
    | Some _ => bigrams
    end in
  inner ← getitem bigrams word.1;
  let inner :=
    match inner !! word.2 with
    | None => <[word.2 := 1]> inner
    | Some c => <[word.2 := c + 1]> inner
    end in
  let bigrams := <[word.1 := inner]> bigrams in
  inner ← getitem bigrams word.1;
  probabilities ← counts_to_probabilities inner;
  Ok (bigrams, <[word.1 := probabilities]> tmp).

Fixpoint bigram_loop
    (st : gmap string (gmap string Z) * gmap string (gmap string float))
    (pairs : list (string * string))
    : result (gmap string (gmap string Z) * gmap string (gmap string float)) :=
  match pairs with
  | [] => Ok st
  | word :: pairs' => st ← bigram_step st word; bigram_loop st pairs'
  end.

Definition calculate_bigrams (word_list : list string)
    : result (gmap string (gmap string float)) :=
  st ← bigram_loop (∅, ∅) (zip word_list (drop 1 word_list));
  Ok st.2.

(** One iteration of the loop of [calculate_trigrams] on the triple
    [(w0, w1, w2)]. *)
Definition trigram_step
    (st : gmap (string * string) (gmap string Z) * gmap (string * string) (gmap string float))
    (word : string * string * string)
    : result (gmap (string * string) (gmap string Z) *
              gmap (string * string) (gmap string float)) :=
  let '(trigrams, tmp) := st in
  let '(w0, w1, w2) := word in
  trigrams ←
    match trigrams !! (w0, w1) with
    | None =>
        let trigrams := <[(w0, w1) := ∅]> trigrams in
        inner ← getitem trigrams (w0, w1);
        Ok (<[(w0, w1) := <[w2 := 1]> inner]> trigrams)
    | Some _ =>
        inner ← getitem trigrams (w0, w1);
        match inner !! w2 with
        | None => Ok (<[(w0, w1) := <[w2 := 1]> inner]> trigrams)
        | Some c => Ok (<[(w0, w1) := <[w2 := c + 1]> inner]> trigrams)
        end
    end;
  inner ← getitem trigrams (w0, w1);
  probabilities ← counts_to_probabilities inner;
  Ok (trigrams, <[(w0, w1) := probabilities]> tmp).

Fixpoint trigram_loop
    (st : gmap (string * string) (gmap string Z) * gmap (string * string) (gmap string float))
    (triples : list (string * string * string))
    : result (gmap (string * string) (gmap string Z) *
              gmap (string * string) (gmap string float)) :=
  match triples with
  | [] => Ok st
  | word :: triples' => st ← trigram_step st word; trigram_loop st triples'
  end.

(** [zip(word_list, word_list[1:], word_list[2:])] *)
Definition zip3 (word_list : list string) : list (string * string * string) :=
  zip (zip word_list (drop 1 word_list)) (drop 2 word_list).

Definition calculate_trigrams (word_list : list string)
    : result (gmap (string * string) (gmap string float)) :=
  st ← trigram_loop (∅, ∅) (zip3 word_list);
  Ok st.2.

(** ** Text generation *)

(** The loop of [random_unigram_text], [n] iterations from [result]. *)
Fixpoint unigram_text_loop (n : nat) (unigrams : gmap string float) (result : string)
    : M string :=
  match n with
  | O => mret result
  | S n' =>
      next_word ← select_random unigrams;
      unigram_text_loop n' unigrams (result +:+ (next_word +:+ " "))
  end.

(** [range(num_words)] and [xrange(num_words - 2)] run [max 0 _] times. *)
Definition random_unigram_text (unigrams : gmap string float) (num_words : Z) : M string :=
  result ← unigram_text_loop (Z.to_nat num_words) unigrams "";
  mret (rstrip result).

(** The loop of [random_bigram_text]; the state is [(next_word, result)]. *)
Fixpoint bigram_text_loop (n : nat) (bigrams : gmap string (gmap string float))
    (next_word result : string) : M (string * string) :=
  match n with
  | O => mret (next_word, result)
  | S n' =>
      distribution ← lift (getitem bigrams next_word);
      next_word ← select_random distribution;
      bigram_text_loop n' bigrams next_word (result +:+ (next_word +:+ " "))
  end.

Definition random_bigram_text (first_word : string)
    (bigrams : gmap string (gmap string float)) (num_words : Z) : M string :=
  let result := "" in
  distribution ← lift (getitem bigrams first_word);
  next_word ← select_random distribution;
  let result := result +:+ (first_word +:+ " " +:+ next_word +:+ " ") in
  st ← bigram_text_loop (Z.to_nat (num_words - 2)) bigrams next_word result;
  mret (rstrip st.2).

(** The state of the loop of [random_trigram_text]. *)
Record trigram_state : Type := TrigramState {
  first_word : string;
  second_word : string;
  next_word : string;
  result_text : string
}.

(** The body of the loop of [random_trigram_text]. *)
Definition trigram_text_step (bigrams : gmap string (gmap string float))
    (trigrams : gmap (string * string) (gmap string float))
    (st : trigram_state) : M trigram_state :=
  (* Step to the next word *)
  let first_word := second_word st in
  let second_word := next_word st in
  next_word ←
    match trigrams !! (first_word, second_word) with
    | Some _ =>
        distribution ← lift (getitem trigrams (first_word, second_word));
        select_random distribution
    | None =>
        distribution ← lift (getitem bigrams first_word);
        select_random distribution
    end;
  mret (TrigramState first_word second_word next_word
          (result_text st +:+ (next_word +:+ " "))).

Fixpoint trigram_text_loop (n : nat) (bigrams : gmap string (gmap string float))
    (trigrams : gmap (string * string) (gmap string float))
    (st : trigram_state) : M trigram_state :=
  match n with
  | O => mret st
  | S n' =>
      st ← trigram_text_step bigrams trigrams st;
      trigram_text_loop n' bigrams trigrams st
  end.

Definition random_trigram_text (first_word second_word : string)
    (bigrams : gmap string (gmap string float))
    (trigrams : gmap (string * string) (gmap string float)) (num_words : Z) : M string :=
  let result := "" in
  let result := result +:+ (first_word +:+ " " +:+ second_word +:+ " ") in
  distribution ← lift (getitem trigrams (first_word, second_word));
  next_word ← select_random distribution;
  st ← trigram_text_loop (Z.to_nat (num_words - 2)) bigrams trigrams
         (TrigramState first_word second_word next_word result);
  mret (rstrip (result_text st)).

(** ** The entry points

    [huck] is the text of the file [huck.txt]; the result is the text that
    is printed. *)

Definition unigram_main (huck : string) : M string :=
  let words := text_to_list huck in
  unigrams ← lift (calculate_unigrams words);
  random_unigram_text unigrams 100.

Definition bigram_main (huck : string) : M string :=
  let words := text_to_list huck in
  bigrams ← lift (calculate_bigrams words);
  random_bigram_text "the" bigrams 100.

Definition trigram_main (huck : string) : M string :=
  let words := text_to_list huck in
  bigrams ← lift (calculate_bigrams words);
  trigrams ← lift (calculate_trigrams words);
  random_trigram_text "there" "is" bigrams trigrams 100.

(** ** The construction algorithm of the specification

    Follows the words of the specification (4.2): for every adjacent pair
    or triple increment the count of the next token under its context;
    after all are counted, normalize each context's count table
    independently. *)
Section Specification.
Context `{Countable K}.

Definition increment (counts : gmap K (gmap string Z)) (obs : K * string)
    : gmap K (gmap string Z) :=
  let table := default ∅ (counts !! obs.1) in
  <[obs.1 := <[obs.2 := default 0 (table !! obs.2) + 1]> table]> counts.

Definition count_all (observations : list (K * string)) : gmap K (gmap string Z) :=
  foldl increment ∅ observations.

Fixpoint normalize_tables (tables : list (K * gmap string Z))
    : result (gmap K (gmap string float)) :=
  match tables with
  | [] => Ok ∅
  | (context, table) :: tables' =>
      distribution ← counts_to_probabilities table;
      model ← normalize_tables tables';
      Ok (<[context := distribution]> model)
  end.

Definition build_model (observations : list (K * string))
    : result (gmap K (gmap string float)) :=
  normalize_tables (map_to_list (count_all observations)).
End Specification.

Definition build_bigram (tokens : list string) : result (gmap string (gmap string float)) :=
  build_model (zip tokens (drop 1 tokens)).

Definition build_trigram (tokens : list string)
    : result (gmap (string * string) (gmap string float)) :=
  build_model (zip3 tokens).

(** * Properties *)

(** ** Enumerations *)

Lemma enum_NoDup_keys {V} (d : gmap string V) : NoDup (enum d).*1.
Proof. rewrite (enum_perm V d). apply NoDup_fst_map_to_list. Qed.

Lemma enum_to_map {V} (d : gmap string V) : list_to_map (enum d) = d.
Proof.
  rewrite <- (list_to_map_to_list d) at 2.
  apply list_to_map_proper; [apply enum_NoDup_keys | apply enum_perm].
Qed.

Lemma enum_nil {V} (d : gmap string V) : enum d = [] ↔ d = ∅.
Proof.
  split; intros Hd.
  - rewrite <- (enum_to_map d), Hd. done.
  - apply Permutation_nil_r. rewrite (enum_perm V d), Hd.
    by rewrite map_to_list_empty.
Qed.

Lemma enum_elem_dom {V} (d : gmap string V) item :
  item ∈ (enum d).*1 ↔ item ∈ dom d.
Proof.
  rewrite (enum_perm V d), elem_of_dom.
  rewrite list_elem_of_fmap. split.
  - intros ([k v] & -> & Hin). apply elem_of_map_to_list in Hin. by eexists.
  - intros [v Hv]. exists (item, v). split; [done|]. by apply elem_of_map_to_list.
Qed.

Lemma enum_lookup {V} (d : gmap string V) k v :
  (k, v) ∈ enum d ↔ d !! k = Some v.
Proof. rewrite (enum_perm V d). apply elem_of_map_to_list. Qed.

(** ** Floats *)

Lemma float_overflow_pos : 0 < float_overflow.
Proof. reflexivity. Qed.

Lemma float_of_int_Ok (n : Z) :
  Z.abs n < float_overflow → float_of_int n = Ok (round_int n).
Proof. intros Hn. unfold float_of_int. case_decide; [lia|done]. Qed.

Lemma float_of_int_Err (n : Z) :
  float_overflow ≤ Z.abs n → float_of_int n = Err OverflowError.
Proof. intros Hn. unfold float_of_int. case_decide; [done|lia]. Qed.

(** Adding a zero does not change how a total compares. *)
Lemma flt_fadd_zero (r total p : float) :
  SFeqb p float_zero = true → flt r (fadd total p) = flt r total.
Proof.
  destruct p as [sp|sp| |sp mp ep]; intros Hp;
    try (destruct sp; cbn in Hp; discriminate Hp);
    try (cbn in Hp; discriminate Hp).
  destruct total as [st|st| |st mt et]; try reflexivity.
  destruct st, sp, r as [sr|sr| |sr mr er]; reflexivity.
Qed.

Lemma flt_zero_nonneg (r : float) (s : bool) :
  fle float_zero r = true → flt r (S754_zero s) = false.
Proof. by destruct r as [sr|[]| |[] mr er]. Qed.

Lemma finite_compare (m1 m2 : positive) (e1 e2 : Z) :
  SFcompare (S754_finite false m1 e1) (S754_finite false m2 e2) =
    Some match Z.compare e1 e2 with
         | Lt => Lt
         | Gt => Gt
         | Eq => Pos.compare_cont Eq m1 m2
         end.
Proof. reflexivity. Qed.

(** [r < 1.0 <= s] gives [r < s]. *)
Lemma flt_below_one (r s : float) :
  flt r float_one = true → fle float_one s = true → flt r s = true.
Proof.
  unfold flt, fle, SFltb, SFleb, float_one.
  destruct r as [sr|sr| |sr mr er], s as [ss|ss| |ss ms es];
    try destruct sr; try destruct ss;
    try (intros H1 H2; reflexivity);
    try (intros H1 H2; discriminate H1);
    try (intros H1 H2; discriminate H2).
  rewrite !finite_compare.
  generalize 4503599627370496%positive. intros one.
  generalize (-52). intros eone.
  destruct (Z.compare_spec er eone) as [->|Her|Her];
    destruct (Z.compare_spec eone es) as [<-|Hes|Hes]; try discriminate;
    try (intros _ _; reflexivity).
  - change (Pos.compare_cont Eq mr one) with (Pos.compare mr one).
    change (Pos.compare_cont Eq one ms) with (Pos.compare one ms).
    change (Pos.compare_cont Eq mr ms) with (Pos.compare mr ms).
    destruct (Pos.compare_spec mr one) as [->|Hmr|Hmr]; try discriminate.
    destruct (Pos.compare_spec one ms) as [<-|Hms|Hms]; try discriminate.
    + intros _ _. by rewrite (proj2 (Pos.compare_lt_iff mr one) Hmr).
    + intros _ _. rewrite (proj2 (Pos.compare_lt_iff mr ms)); [done|lia].
  - intros _ _. by rewrite (proj2 (Z.compare_lt_iff er eone) Her).
  - intros _ _. rewrite (proj2 (Z.compare_lt_iff er es)); [done|lia].
Qed.

(** ** [counts_to_probabilities] *)

Lemma sum_counts_foldr total items :
  sum_counts total items = total + foldr Z.add 0 items.*2.
Proof.
  revert total. induction items as [|[k c] items IH]; intros total.
  - simpl. lia.
  - rewrite fmap_cons. cbn [sum_counts foldr snd]. rewrite IH. lia.
Qed.

Lemma Zsum_permutation (l1 l2 : list Z) :
  l1 ≡ₚ l2 → foldr Z.add 0 l1 = foldr Z.add 0 l2.
Proof. induction 1; simpl; lia. Qed.

Lemma sum_counts_enum counts : sum_counts 0 (enum counts) = total_count counts.
Proof.
  rewrite sum_counts_foldr. unfold total_count. simpl.
  apply Zsum_permutation. by rewrite (enum_perm Z counts).
Qed.

Lemma Zsum_nonneg (l : list Z) :
  Forall (λ c, 0 ≤ c) l → 0 ≤ foldr Z.add 0 l.
Proof. induction 1; simpl; lia. Qed.

Lemma Zsum_elem_le (l : list Z) (c : Z) :
  Forall (λ c, 0 ≤ c) l → c ∈ l → c ≤ foldr Z.add 0 l.
Proof.
  induction 1 as [|x l Hx Hl IH]; intros Hin.
  - by apply elem_of_nil in Hin.
  - apply elem_of_cons in Hin as [->|Hin]; simpl.
    + pose proof (Zsum_nonneg l Hl). lia.
    + specialize (IH Hin). lia.
Qed.

Lemma map_values_nonneg (counts : gmap string Z) :
  map_Forall (λ _ c, 0 ≤ c) counts →
  Forall (λ c, 0 ≤ c) (map_to_list counts).*2.
Proof.
  intros Hcounts. apply Forall_forall. intros c Hin.
  apply list_elem_of_fmap in Hin as ([k c'] & -> & Hin).
  apply elem_of_map_to_list in Hin. by apply (Hcounts k c').
Qed.

Lemma count_le_total (counts : gmap string Z) item c :
  map_Forall (λ _ c, 0 ≤ c) counts → counts !! item = Some c →
  0 ≤ c ≤ total_count counts.
Proof.
  intros Hcounts Hc. split; [by apply (Hcounts item c)|].
  apply Zsum_elem_le; [by apply map_values_nonneg|].
  apply list_elem_of_fmap. exists (item, c). split; [done|].
  by apply elem_of_map_to_list.
Qed.

Lemma fill_probabilities_cons total probabilities item c items :
  fill_probabilities total probabilities ((item, c) :: items) =
    if decide (float_overflow ≤ Z.abs total) then Err OverflowError
    else if decide (float_overflow ≤ Z.abs c) then Err OverflowError
    else if decide (total = 0) then Err ZeroDivisionError
    else fill_probabilities total
           (<[item := fdiv (round_int c) (round_int total)]> probabilities) items.
Proof.
  cbn [fill_probabilities]. unfold float_of_int.
  repeat case_decide; reflexivity.
Qed.

Lemma fill_probabilities_lookup total probabilities items :
  total ≠ 0 → Z.abs total < float_overflow →
  Forall (λ item, Z.abs item.2 < float_overflow) items →
  NoDup items.*1 →
  ∃ p, fill_probabilities total probabilities items = Ok p ∧
    ∀ k, p !! k =
      match list_to_map (M:=gmap string Z) items !! k with
      | Some c => Some (fdiv (round_int c) (round_int total))
      | None => probabilities !! k
      end.
Proof.
  intros Htotal Hbound Hitems. revert probabilities.
  induction Hitems as [|[k0 c0] items Hc0 Hitems IH]; intros probabilities Hnodup.
  - exists probabilities. split; [done|]. intros k.
    cbn [list_to_map foldr]. by rewrite lookup_empty.
  - rewrite fmap_cons in Hnodup. apply NoDup_cons in Hnodup as [Hk0 Hnodup].
    rewrite fill_probabilities_cons.
    rewrite decide_False by lia. rewrite decide_False by (simpl in Hc0; lia).
    rewrite decide_False by done.
    destruct (IH (<[k0 := fdiv (round_int c0) (round_int total)]> probabilities) Hnodup)
      as (p & -> & Hp).
    exists p. split; [done|]. intros k. rewrite Hp.
    cbn [list_to_map foldr]. 
    destruct (decide (k0 = k)) as [->|Hne].
    + rewrite (not_elem_of_list_to_map_1 _ _ Hk0).
      by rewrite !lookup_insert_eq.
    + by rewrite !lookup_insert_ne.
Qed.

Lemma counts_to_probabilities_empty : counts_to_probabilities ∅ = Ok ∅.
Proof.
  unfold counts_to_probabilities. by rewrite (proj2 (enum_nil ∅)).
Qed.

(** A total too large for a float: [float(total)] fails in the first
    iteration of the second loop. *)
Lemma counts_to_probabilities_overflow counts :
  counts ≠ ∅ → float_overflow ≤ Z.abs (total_count counts) →
  counts_to_probabilities counts = Err OverflowError.
Proof.
  intros Hne Hbig. unfold counts_to_probabilities. rewrite sum_counts_enum.
  destruct (enum counts) as [|[k c] items] eqn:Hitems.
  - by apply enum_nil in Hitems.
  - rewrite fill_probabilities_cons. by rewrite decide_True.
Qed.

(** What [counts_to_probabilities] computes when every count and the
    total are in the range of a float. *)
Lemma counts_to_probabilities_spec counts :
  counts ≠ ∅ → Z.abs (total_count counts) < float_overflow →
  map_Forall (λ _ c, Z.abs c < float_overflow) counts →
  counts_to_probabilities counts =
    if decide (total_count counts = 0) then Err ZeroDivisionError
    else Ok (normalized counts).
Proof.
  intros Hne Htotal Hcounts.
  unfold counts_to_probabilities. rewrite sum_counts_enum.
  destruct (decide (total_count counts = 0)) as [Hz|Hnz].
  - destruct (enum counts) as [|[k c] items] eqn:Hitems.
    + by apply enum_nil in Hitems.
    + assert (Hc : counts !! k = Some c).
      { apply enum_lookup. rewrite Hitems. apply list_elem_of_here. }
      apply Hcounts in Hc.
      rewrite fill_probabilities_cons.
      rewrite decide_False by lia. rewrite decide_False by lia.
      by rewrite decide_True.
  - destruct (fill_probabilities_lookup (total_count counts) ∅ (enum counts))
      as (p & -> & Hp); [done|done| |apply enum_NoDup_keys|].
    { apply Forall_forall. intros [k c] Hin. apply enum_lookup in Hin.
      by apply (Hcounts k c). }
    f_equal. apply map_eq. intros k. rewrite Hp, enum_to_map.
    unfold normalized. rewrite lookup_fmap, lookup_empty.
    by destruct (counts !! k).
Qed.

(** On counts that are not negative the total bounds every count. *)
Lemma counts_to_probabilities_nonneg counts :
  counts ≠ ∅ → map_Forall (λ _ c, 0 ≤ c) counts →
  counts_to_probabilities counts =
    if decide (float_overflow ≤ total_count counts) then Err OverflowError
    else if decide (total_count counts = 0) then Err ZeroDivisionError
    else Ok (normalized counts).
Proof.
  intros Hne Hcounts.
  assert (Htotal : 0 ≤ total_count counts).
  { apply Zsum_nonneg. by apply map_values_nonneg. }
  destruct (decide (float_overflow ≤ total_count counts)) as [Hbig|Hsmall].
  - apply counts_to_probabilities_overflow; [done|lia].
  - apply counts_to_probabilities_spec; [done|lia|].
    intros k c Hc. destruct (count_le_total counts k c Hcounts Hc). lia.
Qed.

Lemma Qsum_quotients (total : Z) (cs : list Z) :
  (foldr Qplus 0 ((λ c, inject_Z c / inject_Z total) <$> cs)
     == inject_Z (foldr Z.add 0%Z cs) / inject_Z total)%Q.
Proof.
  induction cs as [|c cs IH].
  - simpl. unfold Qdiv. ring.
  - rewrite fmap_cons. cbn [foldr]. rewrite IH, inject_Z_plus.
    unfold Qdiv. ring.
Qed.



(** ** [select_random] *)

Lemma select_loop_elem r total items item :
  select_loop r total items = Ok item → item ∈ items.*1.
Proof.
  revert total. induction items as [|[k p] items IH]; intros total; simpl; [done|].
  destruct (flt r (fadd total p)).
  - intros [= ->]. apply list_elem_of_here.
  - intros Hrest. apply list_elem_of_further. by eapply IH.
Qed.

Lemma select_loop_Err r total items e :
  select_loop r total items = Err e → e = AssertionError.
Proof.
  revert total. induction items as [|[k p] items IH]; intros total; simpl.
  - congruence.
  - destruct (flt r (fadd total p)); [done|]. apply IH.
Qed.

(** The loop returns as soon as the running total exceeds [r]; the last
    running total is the sum of all values. *)
Lemma select_loop_returns r total items :
  items ≠ [] → flt r (foldl fadd total items.*2) = true →
  ∃ item, select_loop r total items = Ok item.
Proof.
  revert total. induction items as [|[k p] items IH]; intros total Hne Hlt; [done|].
  simpl. destruct (flt r (fadd total p)) eqn:Htest; [by eexists|].
  destruct items as [|kp items'].
  - simpl in Hlt. congruence.
  - by apply IH.
Qed.

(** The loop returns the first item at which the running total exceeds
    [r]. *)
Lemma select_loop_first r total items item :
  select_loop r total items = Ok item ↔
  ∃ before p after,
    items = before ++ (item, p) :: after ∧
    Forall (λ t, flt r t = false) (running_totals total before.*2) ∧
    flt r (fadd (foldl fadd total before.*2) p) = true.
Proof.
  split.
  - revert total. induction items as [|[k p] items IH]; intros total; [done|].
    cbn [select_loop]. destruct (flt r (fadd total p)) eqn:Htest.
    + intros [= ->]. exists [], p, items. by repeat split.
    + intros Hrest.
      destruct (IH _ Hrest) as (before & q & after & -> & Hbefore & Hq).
      exists ((k, p) :: before), q, after. split; [done|]. split; [|done].
      rewrite fmap_cons. cbn [running_totals snd]. by apply Forall_cons.
  - intros (before & p & after & -> & Hbefore & Hp).
    revert total Hbefore Hp.
    induction before as [|[k q] before IH]; intros total Hbefore Hp.
    + cbn [app select_loop]. simpl in Hp. by rewrite Hp.
    + cbn [app select_loop]. rewrite fmap_cons in Hbefore, Hp.
      cbn [running_totals foldl snd] in Hbefore, Hp.
      apply Forall_cons in Hbefore as [Hq Hbefore].
      rewrite Hq. by apply IH.
Qed.

Lemma select_loop_falls_through r total items :
  select_loop r total items = Err AssertionError ↔
  Forall (λ t, flt r t = false) (running_totals total items.*2).
Proof.
  revert total. induction items as [|[k p] items IH]; intros total.
  - split; [by constructor|done].
  - rewrite fmap_cons. cbn [select_loop running_totals snd].
    rewrite Forall_cons. destruct (flt r (fadd total p)) eqn:Htest.
    + split; [done|]. by intros [? _].
    + rewrite IH. split; [done|]. by intros [_ ?].
Qed.

Lemma select_random_unfold distribution i :
  select_random distribution i =
    if sum_near_one distribution then
      match select_loop (rand i) float_zero (enum distribution) with
      | Ok item => Ok (item, S i)
      | Err e => Err e
      end
    else Err AssertionError.
Proof.
  unfold select_random, sum_near_one, mbind, M_bind, lift, random, assert.
  by destruct (flt _ tolerance).
Qed.

Lemma select_random_Ok distribution i item j :
  select_random distribution i = Ok (item, j) →
  j = S i ∧ item ∈ dom distribution.
Proof.
  rewrite select_random_unfold. destruct (sum_near_one _); [|done].
  destruct (select_loop _ _ _) as [item'|] eqn:Hloop; [|done].
  intros [= -> <-]. split; [done|].
  apply enum_elem_dom. by eapply select_loop_elem.
Qed.

Lemma select_random_Err distribution i e :
  select_random distribution i = Err e → e = AssertionError.
Proof.
  rewrite select_random_unfold. destruct (sum_near_one _); [|congruence].
  destruct (select_loop _ _ _) as [item'|e'] eqn:Hloop; [done|].
  intros [= <-]. by eapply select_loop_Err.
Qed.

Lemma select_random_sum_exceeds distribution i :
  sum_near_one distribution = true →
  flt (rand i) (fsum (enum distribution).*2) = true →
  ∃ item, select_random distribution i = Ok (item, S i) ∧ item ∈ dom distribution.
Proof.
  intros Hnear Hlt.
  destruct (select_loop_returns (rand i) float_zero (enum distribution))
    as [item Hitem]; [|done|].
  - intros Hnil. rewrite Hnil in Hlt.
    change (fsum [].*2) with (S754_zero false) in Hlt.
    by rewrite (flt_zero_nonneg _ false (proj1 (rand_range i))) in Hlt.
  - exists item. rewrite select_random_unfold, Hnear, Hitem. split; [done|].
    apply enum_elem_dom. by eapply select_loop_elem.
Qed.

(** ** Texts and their words *)

Lemma string_app_nil_l (s : string) : "" +:+ s = s.
Proof. reflexivity. Qed.

Lemma string_app_cons a (s t : string) : String a s +:+ t = String a (s +:+ t).
Proof. reflexivity. Qed.

Lemma string_app_nil_r (s : string) : s +:+ "" = s.
Proof. induction s as [|a s IH]; [done|]. by rewrite string_app_cons, IH. Qed.

Lemma string_app_assoc (s t u : string) : (s +:+ t) +:+ u = s +:+ (t +:+ u).
Proof. induction s as [|a s IH]; [done|]. by rewrite !string_app_cons, IH. Qed.

Lemma rev_app_app (s t : string) :
  String.rev_app s t = String.rev s +:+ t.
Proof.
  unfold String.rev. revert t. induction s as [|a s IH]; intros t; [done|].
  simpl. rewrite (IH (String a t)), (IH (String a "")).
  by rewrite string_app_assoc.
Qed.

Lemma words_go_rstrip (s : string) cur :
  String.words_go cur (rstrip s) = String.words_go cur s.
Proof.
  revert cur. induction s as [|a s IH]; intros cur; [done|].
  cbn [rstrip]. destruct (rstrip s) as [|b t] eqn:Hstrip.
  - destruct (Ascii.is_space a) eqn:Hspace; cbn [String.words_go]; rewrite Hspace.
    + rewrite <- IH. cbn [String.words_go]. by rewrite List.app_nil_r.
    + by rewrite <- IH.
  - cbn [String.words_go]. destruct (Ascii.is_space a); by rewrite <- IH.
Qed.

Lemma words_go_no_space (w acc rest : string) :
  no_space w = true →
  String.words_go (Some acc) (w +:+ String " "%char rest) =
    (String.rev acc +:+ w) :: String.words_go None rest.
Proof.
  revert acc. induction w as [|a w IH]; intros acc Hw.
  - rewrite string_app_nil_l, string_app_nil_r. reflexivity.
  - simpl in Hw. apply andb_true_iff in Hw as [Ha Hw].
    apply negb_true_iff in Ha.
    rewrite string_app_cons. cbn [String.words_go]. rewrite Ha.
    cbn [from_option]. rewrite (IH _ Hw). f_equal.
    change (String.rev (String a acc)) with (String.rev_app acc (String a "")).
    by rewrite rev_app_app, string_app_assoc.
Qed.

Lemma words_go_word (w rest : string) :
  is_word w = true →
  String.words_go None (w +:+ String " "%char rest) = w :: String.words_go None rest.
Proof.
  destruct w as [|a w]; [done|]. intros Hw.
  cbn [is_word no_space] in Hw. apply andb_true_iff in Hw as [Ha Hw].
  apply negb_true_iff in Ha.
  rewrite string_app_cons. cbn [String.words_go]. rewrite Ha.
  cbn [from_option]. by rewrite (words_go_no_space _ _ _ Hw).
Qed.

(** Splitting the text of a list of words gives the words back. *)
Lemma words_join_words (ws : list string) :
  Forall (λ w, is_word w = true) ws → String.words (join_words ws) = ws.
Proof.
  unfold String.words. induction 1 as [|w ws Hw _ IH]; [done|].
  cbn [join_words foldr]. fold (join_words ws).
  change (" " +:+ join_words ws) with (String " "%char (join_words ws)).
  by rewrite (words_go_word _ _ Hw), IH.
Qed.

Lemma words_rstrip_join_words (ws : list string) :
  Forall (λ w, is_word w = true) ws →
  String.words (rstrip (join_words ws)) = ws.
Proof.
  intros Hws. unfold String.words.
  rewrite words_go_rstrip. by apply words_join_words.
Qed.

Lemma join_words_snoc (text : string) (w : string) (ws : list string) :
  (text +:+ (w +:+ " ")) +:+ join_words ws = text +:+ join_words (w :: ws).
Proof. cbn [join_words foldr]. by rewrite !string_app_assoc. Qed.

Lemma join_words_app (ws1 ws2 : list string) :
  join_words (ws1 ++ ws2) = join_words ws1 +:+ join_words ws2.
Proof.
  induction ws1 as [|w ws1 IH]; [done|].
  cbn [join_words foldr app]. fold (join_words (ws1 ++ ws2)) (join_words ws1).
  by rewrite IH, !string_app_assoc.
Qed.

(** ** Text generation *)

Lemma M_bind_Ok {A B} (m : M A) (f : A → M B) i r :
  (m ≫= f) i = Ok r → ∃ a j, m i = Ok (a, j) ∧ f a j = Ok r.
Proof.
  unfold mbind, M_bind. destruct (m i) as [[a j]|e]; [|done]. by exists a, j.
Qed.

Lemma lift_getitem_Ok `{Countable K} {V} (d : gmap K V) k i v j :
  lift (getitem d k) i = Ok (v, j) → d !! k = Some v ∧ j = i.
Proof.
  unfold lift, getitem. destruct (d !! k); [|done]. by intros [= -> ->].
Qed.

Lemma unigram_text_loop_Ok n unigrams text i s j :
  unigram_text_loop n unigrams text i = Ok (s, j) →
  ∃ ws, length ws = n ∧ s = text +:+ join_words ws ∧
        Forall (λ w, w ∈ dom unigrams) ws ∧ j = (i + n)%nat.
Proof.
  revert text i. induction n as [|n IH]; intros text i Hrun.
  - injection Hrun as <- <-. exists []. repeat split; [|done|lia].
    by rewrite string_app_nil_r.
  - apply M_bind_Ok in Hrun as (w & i' & Hw & Hrun).
    apply select_random_Ok in Hw as [-> Hw].
    apply IH in Hrun as (ws & Hlen & -> & Hws & ->).
    exists (w :: ws). repeat split.
    + simpl. by rewrite Hlen.
    + apply join_words_snoc.
    + by constructor.
    + lia.
Qed.

Lemma bigram_text_loop_Ok n bigrams w0 text i w s j :
  bigram_text_loop n bigrams w0 text i = Ok ((w, s), j) →
  ∃ ws, length ws = n ∧ s = text +:+ join_words ws ∧
        Forall (model_word bigrams) ws ∧ j = (i + n)%nat.
Proof.
  revert w0 text i. induction n as [|n IH]; intros w0 text i Hrun.
  - injection Hrun as <- <- <-. exists []. repeat split; [|done|lia].
    by rewrite string_app_nil_r.
  - apply M_bind_Ok in Hrun as (d & i' & Hd & Hrun).
    apply lift_getitem_Ok in Hd as [Hd ->].
    apply M_bind_Ok in Hrun as (w1 & i' & Hw1 & Hrun).
    apply select_random_Ok in Hw1 as [-> Hw1].
    apply IH in Hrun as (ws & Hlen & -> & Hws & ->).
    exists (w1 :: ws). repeat split.
    + simpl. by rewrite Hlen.
    + apply join_words_snoc.
    + constructor; [by exists w0, d|done].
    + lia.
Qed.

Lemma trigram_text_step_Ok bigrams trigrams st i st' j :
  trigram_text_step bigrams trigrams st i = Ok (st', j) →
  ∃ w, (model_word trigrams w ∨ model_word bigrams w) ∧
       st' = TrigramState (second_word st) (next_word st) w
               (result_text st +:+ (w +:+ " ")) ∧
       j = S i.
Proof.
  unfold trigram_text_step. intros Hrun.
  apply M_bind_Ok in Hrun as (w & i' & Hw & Hrun).
  injection Hrun as <- <-. exists w.
  destruct (trigrams !! (second_word st, next_word st)) as [d0|] eqn:Hctx.
  - apply M_bind_Ok in Hw as (d & i'' & Hd & Hw).
    apply lift_getitem_Ok in Hd as [Hd ->].
    apply select_random_Ok in Hw as [-> Hw].
    repeat split. left. by eexists _, d.
  - apply M_bind_Ok in Hw as (d & i'' & Hd & Hw).
    apply lift_getitem_Ok in Hd as [Hd ->].
    apply select_random_Ok in Hw as [-> Hw].
    repeat split. right. by eexists _, d.
Qed.

Lemma trigram_text_loop_Ok n bigrams trigrams st i st' j :
  trigram_text_loop n bigrams trigrams st i = Ok (st', j) →
  ∃ ws, length ws = n ∧ result_text st' = result_text st +:+ join_words ws ∧
        Forall (λ w, model_word trigrams w ∨ model_word bigrams w) ws ∧
        j = (i + n)%nat.
Proof.
  revert st i. induction n as [|n IH]; intros st i Hrun.
  - injection Hrun as <- <-. exists []. repeat split; [|done|lia].
    by rewrite string_app_nil_r.
  - apply M_bind_Ok in Hrun as (st1 & i' & Hstep & Hrun).
    apply trigram_text_step_Ok in Hstep as (w & Hw & -> & ->).
    apply IH in Hrun as (ws & Hlen & -> & Hws & ->).
    exists (w :: ws). repeat split.
    + simpl. by rewrite Hlen.
    + apply join_words_snoc.
    + by constructor.
    + lia.
Qed.

Lemma random_unigram_text_Ok unigrams num_words i s j :
  random_unigram_text unigrams num_words i = Ok (s, j) →
  ∃ ws, length ws = Z.to_nat num_words ∧ s = rstrip (join_words ws) ∧
        Forall (λ w, w ∈ dom unigrams) ws.
Proof.
  unfold random_unigram_text. intros Hrun.
  apply M_bind_Ok in Hrun as (text & i' & Hloop & Hrun).
  injection Hrun as <- <-.
  apply unigram_text_loop_Ok in Hloop as (ws & Hlen & -> & Hws & _).
  exists ws. by rewrite string_app_nil_l.
Qed.

Lemma random_bigram_text_Ok first_word bigrams num_words i s j :
  random_bigram_text first_word bigrams num_words i = Ok (s, j) →
  ∃ w ws, length ws = Z.to_nat (num_words - 2) ∧
          s = rstrip (join_words (first_word :: w :: ws)) ∧
          Forall (model_word bigrams) (w :: ws).
Proof.
  unfold random_bigram_text. intros Hrun.
  apply M_bind_Ok in Hrun as (d & i' & Hd & Hrun).
  apply lift_getitem_Ok in Hd as [Hd ->].
  apply M_bind_Ok in Hrun as (w & i' & Hw & Hrun).
  apply select_random_Ok in Hw as [-> Hw].
  apply M_bind_Ok in Hrun as ([w' text] & i' & Hloop & Hrun).
  injection Hrun as <- <-.
  apply bigram_text_loop_Ok in Hloop as (ws & Hlen & -> & Hws & _).
  exists w, ws. repeat split; [done| |].
  - f_equal. change (first_word :: w :: ws) with ([first_word; w] ++ ws).
    rewrite join_words_app. by f_equal.
  - constructor; [by exists first_word, d|done].
Qed.

Lemma random_trigram_text_Ok first second bigrams trigrams num_words i s j :
  random_trigram_text first second bigrams trigrams num_words i = Ok (s, j) →
  ∃ ws, length ws = Z.to_nat (num_words - 2) ∧
        s = rstrip (join_words (first :: second :: ws)) ∧
        Forall (λ w, model_word trigrams w ∨ model_word bigrams w) ws.
Proof.
  unfold random_trigram_text. intros Hrun.
  apply M_bind_Ok in Hrun as (d & i' & Hd & Hrun).
  apply lift_getitem_Ok in Hd as [Hd ->].
  apply M_bind_Ok in Hrun as (w & i' & Hw & Hrun).
  apply select_random_Ok in Hw as [-> Hw].
  apply M_bind_Ok in Hrun as (st & i' & Hloop & Hrun).
  injection Hrun as <- <-.
  apply trigram_text_loop_Ok in Hloop as (ws & Hlen & -> & Hws & _).
  exists ws. repeat split; [done| |done].
  f_equal. change (first :: second :: ws) with ([first; second] ++ ws).
  rewrite join_words_app. by f_equal.
Qed.

(** C9. A generation call that succeeds on a valid requested length
    returns a text of that many tokens: the text is the tokens appended,
    each followed by one space, with the last space stripped; and when the
    seed words and the items of the model are words, splitting the text on
    white space gives exactly these tokens. *)
Theorem generated_text_length :
  (∀ unigrams n i s j,
     1 ≤ n → random_unigram_text unigrams n i = Ok (s, j) →
     ∃ tokens, s = rstrip (join_words tokens) ∧ Z.of_nat (length tokens) = n ∧
       ((∀ w, w ∈ dom unigrams → is_word w = true) → String.words s = tokens)) ∧
  (∀ first_word bigrams n i s j,
     2 ≤ n → random_bigram_text first_word bigrams n i = Ok (s, j) →
     ∃ tokens, s = rstrip (join_words tokens) ∧ Z.of_nat (length tokens) = n ∧
       (is_word first_word = true → model_of_words bigrams →
        String.words s = tokens)) ∧
  (∀ first_word second_word bigrams trigrams n i s j,
     2 ≤ n →
     random_trigram_text first_word second_word bigrams trigrams n i = Ok (s, j) →
     ∃ tokens, s = rstrip (join_words tokens) ∧ Z.of_nat (length tokens) = n ∧
       (is_word first_word = true → is_word second_word = true →
        model_of_words bigrams → model_of_words trigrams →
        String.words s = tokens)).
Proof.
  split; [|split].
  - intros unigrams n i s j Hn Hrun.
    apply random_unigram_text_Ok in Hrun as (ws & Hlen & -> & Hws).
    exists ws. repeat split; [lia|].
    intros Hwords. apply words_rstrip_join_words.
    eapply Forall_impl; [exact Hws|]. auto.
  - intros first_word bigrams n i s j Hn Hrun.
    apply random_bigram_text_Ok in Hrun as (w & ws & Hlen & -> & Hws).
    exists (first_word :: w :: ws). repeat split; [simpl; lia|].
    intros Hfirst Hwords. apply words_rstrip_join_words.
    constructor; [done|]. eapply Forall_impl; [exact Hws|]. auto.
  - intros first_word second_word bigrams trigrams n i s j Hn Hrun.
    apply random_trigram_text_Ok in Hrun as (ws & Hlen & -> & Hws).
    exists (first_word :: second_word :: ws). repeat split; [simpl; lia|].
    intros Hfirst Hsecond Hbigrams Htrigrams. apply words_rstrip_join_words.
    do 2 (constructor; [done|]). eapply Forall_impl; [exact Hws|].
    intros w [Hw|Hw]; auto.
Qed.


(** C7, amended. No generation function checks the requested length.
    [random_unigram_text] with [num_words < 1] returns the empty text
    without reading the random tape, whatever the model;
    [random_bigram_text] and [random_trigram_text] with [num_words < 2]
    do exactly what they do for [num_words = 2]. *)
Theorem short_requests_are_not_rejected :
  (∀ unigrams n i, n < 1 → random_unigram_text unigrams n i = Ok ("", i)) ∧
  (∀ first_word bigrams n i, n < 2 →
     random_bigram_text first_word bigrams n i =
     random_bigram_text first_word bigrams 2 i) ∧
  (∀ first_word second_word bigrams trigrams n i, n < 2 →
     random_trigram_text first_word second_word bigrams trigrams n i =
     random_trigram_text first_word second_word bigrams trigrams 2 i).
Proof.
  split; [|split].
  - intros unigrams n i Hn. unfold random_unigram_text.
    by replace (Z.to_nat n) with 0%nat by lia.
  - intros first_word bigrams n i Hn. unfold random_bigram_text.
    by replace (Z.to_nat (n - 2)) with (Z.to_nat (2 - 2)) by lia.
  - intros first_word second_word bigrams trigrams n i Hn.
    unfold random_trigram_text.
    by replace (Z.to_nat (n - 2)) with (Z.to_nat (2 - 2)) by lia.
Qed.

(** C2. In a step of the loop of [random_trigram_text] whose rolling
    context [(first, second)] is not a key of the trigram model, the next
    word is sampled from [bigrams[first]], the distribution of the older
    word of the context: the step fails with [KeyError] when [first] is
    not a key of the bigram model, and it does the same for any two
    bigram models that agree on [first], whatever they hold for
    [second]. *)
Theorem trigram_fallback_uses_older_word bigrams trigrams
    (previous first second text : string) (i : nat) :
  trigrams !! (first, second) = None →
  trigram_text_step bigrams trigrams (TrigramState previous first second text) i =
    match bigrams !! first with
    | None => Err KeyError
    | Some distribution =>
        match select_random distribution i with
        | Ok (w, j) => Ok (TrigramState first second w (text +:+ (w +:+ " ")), j)
        | Err e => Err e
        end
    end ∧
  ∀ bigrams', bigrams' !! first = bigrams !! first →
    trigram_text_step bigrams' trigrams (TrigramState previous first second text) i =
    trigram_text_step bigrams trigrams (TrigramState previous first second text) i.
Proof.
  intros Hctx. split.
  - unfold trigram_text_step, mbind, M_bind, lift, getitem. cbn [second_word next_word].
    rewrite Hctx. destruct (bigrams !! first) as [d|]; [|done].
    by destruct (select_random d i) as [[w j]|e].
  - intros bigrams' Hagree.
    unfold trigram_text_step, mbind, M_bind, lift, getitem. cbn [second_word next_word].
    by rewrite Hctx, Hagree.
Qed.

(** ** Model construction *)

Lemma sum_positive_counts (items : list (string * Z)) :
  Forall (λ item, 0 < item.2) items → 0 ≤ foldr Z.add 0 items.*2.
Proof.
  induction 1 as [|[k c] items Hc _ IH]; [done|].
  rewrite fmap_cons. cbn [foldr snd] in *. lia.
Qed.

Lemma total_count_pos table : count_table table → 0 < total_count table.
Proof.
  intros [Hne Hpos]. unfold total_count.
  apply map_Forall_to_list in Hpos.
  assert (Hitems : Forall (λ item, 0 < item.2) (map_to_list table)).
  { eapply Forall_impl; [exact Hpos|]. by intros [k c]. }
  destruct (map_to_list table) as [|[k c] items] eqn:Heq.
  - by apply map_to_list_empty_iff in Heq.
  - apply Forall_cons in Hitems as [Hc Hitems].
    apply sum_positive_counts in Hitems.
    rewrite fmap_cons. cbn [foldr snd] in *. lia.
Qed.

(** On the tables that the builders hold, normalization fails only by
    overflow of the total. *)
Lemma counts_to_probabilities_count_table table :
  count_table table →
  counts_to_probabilities table =
    if bool_decide (total_count table < float_overflow) then Ok (normalized table)
    else Err OverflowError.
Proof.
  intros Htable. pose proof (total_count_pos table Htable) as Hpos.
  destruct Htable as [Hne Hcounts].
  rewrite counts_to_probabilities_nonneg; [|done|].
  - case_bool_decide.
    + rewrite decide_False by lia. by rewrite decide_False by lia.
    + by rewrite decide_True by lia.
  - intros k c Hc. specialize (Hcounts k c Hc). simpl in *. lia.
Qed.

Lemma total_count_empty : total_count ∅ = 0.
Proof. unfold total_count. by rewrite map_to_list_empty. Qed.

Lemma total_count_insert_fresh (table : gmap string Z) w c :
  table !! w = None → total_count (<[w := c]> table) = c + total_count table.
Proof.
  intros Hw. unfold total_count.
  rewrite (Zsum_permutation _ ((w, c) :: map_to_list table).*2).
  - by rewrite fmap_cons.
  - by rewrite (map_to_list_insert _ _ _ Hw).
Qed.

Lemma total_count_insert (table : gmap string Z) w c :
  total_count (<[w := c]> table) = total_count table - default 0 (table !! w) + c.
Proof.
  destruct (table !! w) as [c0|] eqn:Hw; simpl.
  - rewrite <- (insert_delete_eq table w c).
    rewrite <- (insert_delete_id table w c0 Hw) at 2.
    rewrite !total_count_insert_fresh by apply lookup_delete_eq. lia.
  - rewrite total_count_insert_fresh by done. lia.
Qed.

Section Construction.
Context `{Countable K}.
Implicit Types counts : gmap K (gmap string Z).

Lemma increment_table counts context w :
  count_tables counts →
  count_table (<[w := default 0 (default ∅ (counts !! context) !! w) + 1]>
                 (default ∅ (counts !! context))).
Proof.
  intros Htables. split; [apply insert_non_empty|].
  assert (Hpos : map_Forall (λ _ c, 0 < c) (default ∅ (counts !! context))).
  { destruct (counts !! context) as [table|] eqn:Hctx; simpl.
    - by apply (Htables context table).
    - apply map_Forall_empty. }
  apply map_Forall_insert_2; [|done].
  destruct (default ∅ (counts !! context) !! w) as [c|] eqn:Hw; simpl; [|lia].
  specialize (Hpos w c Hw). simpl in Hpos. lia.
Qed.

Lemma increment_count_tables counts obs :
  count_tables counts → count_tables (increment counts obs).
Proof.
  intros Htables. unfold increment.
  apply map_Forall_insert_2; [|done]. by apply increment_table.
Qed.

Lemma count_all_count_tables counts (observations : list (K * string)) :
  count_tables counts → count_tables (foldl increment counts observations).
Proof.
  revert counts. induction observations as [|obs observations IH]; [done|].
  intros counts Htables. simpl. by apply IH, increment_count_tables.
Qed.

Lemma in_range_empty : in_range (∅ : gmap K (gmap string Z)) = true.
Proof. apply bool_decide_eq_true, map_Forall_empty. Qed.

Lemma map_Forall_in_range_insert counts context table :
  map_Forall (λ _ table, total_count table < float_overflow)
    (<[context := table]> counts) →
  total_count table < float_overflow.
Proof.
  intros Hall.
  exact (map_Forall_insert_1_1 (λ _ t, total_count t < float_overflow)
           counts context table Hall).
Qed.

(** After an increment only the total of the incremented table is new. *)
Lemma in_range_increment counts context w :
  in_range counts = true →
  in_range (increment counts (context, w)) =
    bool_decide
      (total_count (<[w := default 0 (default ∅ (counts !! context) !! w) + 1]>
                      (default ∅ (counts !! context))) < float_overflow).
Proof.
  intros Hcounts. apply bool_decide_eq_true in Hcounts.
  unfold in_range, increment. cbn [fst snd]. apply bool_decide_ext. split.
  - apply map_Forall_in_range_insert.
  - intros Hnew. by apply map_Forall_insert_2.
Qed.

(** Totals only grow. *)
Lemma in_range_increment_inv counts obs :
  in_range (increment counts obs) = true → in_range counts = true.
Proof.
  intros Hnew. apply bool_decide_eq_true in Hnew. apply bool_decide_eq_true.
  intros context table Htable. simpl.
  destruct obs as [c0 w0]. unfold increment in Hnew. cbn [fst snd] in Hnew.
  destruct (decide (c0 = context)) as [->|Hne].
  - apply map_Forall_in_range_insert in Hnew. rewrite Htable in Hnew.
    cbn [default from_option id] in Hnew.
    rewrite total_count_insert in Hnew. lia.
  - apply (Hnew context table). by rewrite lookup_insert_ne.
Qed.

Lemma in_range_count_all_inv counts (observations : list (K * string)) :
  in_range (foldl increment counts observations) = true → in_range counts = true.
Proof.
  revert counts. induction observations as [|obs observations IH]; [done|].
  intros counts Hall. cbn [foldl] in Hall.
  by eapply in_range_increment_inv, IH.
Qed.

Lemma normalize_tables_spec (tables : list (K * gmap string Z)) :
  Forall (λ kt, count_table kt.2) tables →
  normalize_tables tables =
    if bool_decide (Forall (λ kt, total_count kt.2 < float_overflow) tables)
    then Ok (normalized <$> list_to_map tables)
    else Err OverflowError.
Proof.
  induction 1 as [|[context table] tables Htable _ IH].
  - rewrite bool_decide_eq_true_2 by constructor. simpl. by rewrite fmap_empty.
  - cbn [normalize_tables]. cbn [snd] in Htable.
    rewrite (counts_to_probabilities_count_table _ Htable), IH.
    destruct (decide (total_count table < float_overflow)) as [Hhead|Hhead].
    + rewrite (bool_decide_eq_true_2 _ Hhead). cbn [mbind result_bind].
      destruct (decide (Forall (λ kt : K * gmap string Z,
                          total_count kt.2 < float_overflow) tables))
        as [Htail|Htail].
      * rewrite (bool_decide_eq_true_2 _ Htail). cbn [mbind result_bind].
        rewrite bool_decide_eq_true_2 by (by constructor).
        cbn [list_to_map foldr]. by rewrite fmap_insert.
      * rewrite (bool_decide_eq_false_2 _ Htail). cbn [mbind result_bind].
        rewrite bool_decide_eq_false_2; [done|].
        intros [_ Hrest]%Forall_cons. by apply Htail.
    + rewrite (bool_decide_eq_false_2 _ Hhead). cbn [mbind result_bind].
      rewrite bool_decide_eq_false_2; [done|].
      intros [Hfirst _]%Forall_cons. by apply Hhead.
Qed.

Lemma build_model_spec (observations : list (K * string)) :
  build_model observations =
    if in_range (count_all observations)
    then Ok (normalized <$> count_all observations)
    else Err OverflowError.
Proof.
  unfold build_model. rewrite normalize_tables_spec.
  - rewrite list_to_map_to_list. unfold in_range.
    erewrite bool_decide_ext; [done|].
    rewrite map_Forall_to_list. apply Forall_proper; [|done]. by intros [context table].
  - assert (Htables : count_tables (count_all observations)).
    { apply count_all_count_tables, map_Forall_empty. }
    apply map_Forall_to_list in Htables.
    eapply Forall_impl; [exact Htables|]. by intros [context table].
Qed.
End Construction.

Lemma bigram_step_spec bigrams word :
  count_tables bigrams → in_range bigrams = true →
  bigram_step (bigrams, normalized <$> bigrams) word =
    if in_range (increment bigrams word)
    then Ok (increment bigrams word, normalized <$> increment bigrams word)
    else Err OverflowError.
Proof.
  intros Htables Hrange. destruct word as [w0 w1].
  pose proof (increment_table bigrams w0 w1 Htables) as Htable.
  rewrite (in_range_increment bigrams w0 w1 Hrange).
  unfold bigram_step, increment, mbind, result_bind, getitem.
  cbn [fst snd] in *.
  destruct (bigrams !! w0) as [table|] eqn:Hctx;
    cbn [default from_option id] in *.
  - rewrite Hctx, lookup_insert_eq.
    destruct (table !! w1) as [c|] eqn:Hw; cbn [default from_option id] in *.
    + rewrite (counts_to_probabilities_count_table _ Htable).
      case_bool_decide; [|done]. by rewrite fmap_insert.
    + change (0 + 1) with 1 in *.
      rewrite (counts_to_probabilities_count_table _ Htable).
      case_bool_decide; [|done]. by rewrite fmap_insert.
  - rewrite lookup_insert_eq, lookup_empty, insert_insert_eq.
    rewrite lookup_empty in Htable. cbn [default from_option id] in *.
    change (0 + 1) with 1 in *.
    rewrite lookup_insert_eq.
    rewrite (counts_to_probabilities_count_table _ Htable).
    case_bool_decide; [|done]. by rewrite fmap_insert.
Qed.

Lemma bigram_loop_spec bigrams pairs :
  count_tables bigrams → in_range bigrams = true →
  bigram_loop (bigrams, normalized <$> bigrams) pairs =
    if in_range (foldl increment bigrams pairs)
    then Ok (foldl increment bigrams pairs, normalized <$> foldl increment bigrams pairs)
    else Err OverflowError.
Proof.
  revert bigrams. induction pairs as [|word pairs IH]; intros bigrams Htables Hrange.
  - cbn [bigram_loop foldl]. by rewrite Hrange.
  - cbn [bigram_loop foldl]. rewrite (bigram_step_spec _ _ Htables Hrange).
    destruct (in_range (increment bigrams word)) eqn:Hstep; cbn [mbind result_bind].
    + apply IH; [by apply increment_count_tables|done].
    + destruct (in_range (foldl increment (increment bigrams word) pairs)) eqn:Hall;
        [|done].
      apply in_range_count_all_inv in Hall. congruence.
Qed.

Lemma calculate_bigrams_spec word_list :
  calculate_bigrams word_list =
    if in_range (count_all (zip word_list (drop 1 word_list)))
    then Ok (normalized <$> count_all (zip word_list (drop 1 word_list)))
    else Err OverflowError.
Proof.
  unfold calculate_bigrams.
  rewrite <- (fmap_empty normalized) at 1.
  rewrite bigram_loop_spec; [|apply map_Forall_empty|apply in_range_empty].
  unfold count_all. by destruct (in_range _).
Qed.

Lemma trigram_step_spec trigrams word :
  count_tables trigrams → in_range trigrams = true →
  trigram_step (trigrams, normalized <$> trigrams) word =
    if in_range (increment trigrams word)
    then Ok (increment trigrams word, normalized <$> increment trigrams word)
    else Err OverflowError.
Proof.
  intros Htables Hrange. destruct word as [[w0 w1] w2].
  pose proof (increment_table trigrams (w0, w1) w2 Htables) as Htable.
  rewrite (in_range_increment trigrams (w0, w1) w2 Hrange).
  unfold trigram_step, increment, mbind, result_bind, getitem.
  cbn [fst snd] in *.
  destruct (trigrams !! (w0, w1)) as [table|] eqn:Hctx;
    cbn [default from_option id] in *.
  - rewrite ?Hctx.
    destruct (table !! w2) as [c|] eqn:Hw; cbn [default from_option id] in *.
    + rewrite lookup_insert_eq.
      rewrite (counts_to_probabilities_count_table _ Htable).
      case_bool_decide; [|done]. by rewrite fmap_insert.
    + change (0 + 1) with 1 in *. rewrite lookup_insert_eq.
      rewrite (counts_to_probabilities_count_table _ Htable).
      case_bool_decide; [|done]. by rewrite fmap_insert.
  - rewrite lookup_insert_eq, insert_insert_eq.
    rewrite lookup_empty in Htable. rewrite ?lookup_empty.
    cbn [default from_option id] in *.
    change (0 + 1) with 1 in *.
    rewrite lookup_insert_eq.
    rewrite (counts_to_probabilities_count_table _ Htable).
    case_bool_decide; [|done]. by rewrite fmap_insert.
Qed.

Lemma trigram_loop_spec trigrams triples :
  count_tables trigrams → in_range trigrams = true →
  trigram_loop (trigrams, normalized <$> trigrams) triples =
    if in_range (foldl increment trigrams triples)
    then Ok (foldl increment trigrams triples,
             normalized <$> foldl increment trigrams triples)
    else Err OverflowError.
Proof.
  revert trigrams.
  induction triples as [|word triples IH]; intros trigrams Htables Hrange.
  - cbn [trigram_loop foldl]. by rewrite Hrange.
  - cbn [trigram_loop foldl]. rewrite (trigram_step_spec _ _ Htables Hrange).
    destruct (in_range (increment trigrams word)) eqn:Hstep; cbn [mbind result_bind].
    + apply IH; [by apply increment_count_tables|done].
    + destruct (in_range (foldl increment (increment trigrams word) triples)) eqn:Hall;
        [|done].
      apply in_range_count_all_inv in Hall. congruence.
Qed.

Lemma calculate_trigrams_spec word_list :
  calculate_trigrams word_list =
    if in_range (count_all (zip3 word_list))
    then Ok (normalized <$> count_all (zip3 word_list))
    else Err OverflowError.
Proof.
  unfold calculate_trigrams.
  rewrite <- (fmap_empty normalized) at 1.
  rewrite trigram_loop_spec; [|apply map_Forall_empty|apply in_range_empty].
  unfold count_all. by destruct (in_range _).
Qed.

(** ** Built models *)

Lemma occurrences_cons `{EqDecision A} (x y : A) (l : list A) :
  occurrences x (y :: l) = (if decide (y = x) then 1 else 0) + occurrences x l.
Proof.
  unfold occurrences. rewrite filter_cons.
  destruct (decide (y = x)); simpl; lia.
Qed.

Lemma occurrences_nonneg `{EqDecision A} (x : A) (l : list A) : 0 ≤ occurrences x l.
Proof. unfold occurrences. lia. Qed.

Lemma occurrences_pos `{EqDecision A} (x : A) (l : list A) :
  0 < occurrences x l ↔ x ∈ l.
Proof.
  induction l as [|y l IH].
  - split; [done|]. by intros ?%elem_of_nil.
  - rewrite occurrences_cons, elem_of_cons.
    pose proof (occurrences_nonneg x l).
    destruct (decide (y = x)) as [->|Hne].
    + split; [by left|lia].
    + rewrite Z.add_0_l, IH. split; [by right|]. by intros [->|].
Qed.

Lemma occurrences_le_length `{EqDecision A} (x : A) (l : list A) :
  occurrences x l ≤ Z.of_nat (length l).
Proof.
  unfold occurrences. pose proof (length_filter (λ y, y = x) l). lia.
Qed.

Section Frequencies.
Context `{Countable K}.
Implicit Types counts : gmap K (gmap string Z).

Lemma count_of_increment counts (obs : K * string) context w :
  count_of (increment counts obs) context w =
    count_of counts context w + (if decide (obs = (context, w)) then 1 else 0).
Proof.
  destruct obs as [c0 w0]. unfold count_of, increment. cbn [fst snd].
  destruct (decide (c0 = context)) as [->|Hctx].
  - rewrite lookup_insert_eq. cbn [default from_option id].
    destruct (decide (w0 = w)) as [->|Hw].
    + rewrite lookup_insert_eq. by case_decide.
    + rewrite lookup_insert_ne by done.
      case_decide; [congruence|]. simpl. lia.
  - rewrite lookup_insert_ne by done.
    case_decide; [congruence|]. lia.
Qed.

Lemma count_of_count_all counts (observations : list (K * string)) context w :
  count_of (foldl increment counts observations) context w =
    count_of counts context w + occurrences (context, w) observations.
Proof.
  revert counts. induction observations as [|obs observations IH]; intros counts.
  - cbn. unfold occurrences. simpl. lia.
  - cbn [foldl]. rewrite IH, count_of_increment, occurrences_cons. lia.
Qed.

Lemma total_of_increment counts (obs : K * string) context :
  total_of (increment counts obs) context =
    total_of counts context + (if decide (obs.1 = context) then 1 else 0).
Proof.
  destruct obs as [c0 w0]. unfold total_of, increment. cbn [fst snd].
  destruct (decide (c0 = context)) as [->|Hctx].
  - rewrite lookup_insert_eq. cbn [default from_option id].
    rewrite total_count_insert. simpl. lia.
  - rewrite lookup_insert_ne by done. lia.
Qed.

Lemma total_of_count_all counts (observations : list (K * string)) context :
  total_of (foldl increment counts observations) context =
    total_of counts context + occurrences context observations.*1.
Proof.
  revert counts. induction observations as [|obs observations IH]; intros counts.
  - cbn. unfold occurrences. simpl. lia.
  - cbn [foldl]. rewrite IH, total_of_increment, fmap_cons, occurrences_cons. lia.
Qed.

(** The table of a context holds exactly the positive counts. *)
Lemma count_tables_lookup counts context w :
  count_tables counts →
  default ∅ (counts !! context) !! w =
    if decide (0 < count_of counts context w) then Some (count_of counts context w)
    else None.
Proof.
  intros Htables. unfold count_of.
  destruct (counts !! context) as [table|] eqn:Hctx; cbn [default from_option id].
  - destruct (table !! w) as [c|] eqn:Hw; cbn [default from_option id].
    + destruct (Htables _ _ Hctx) as [_ Hpos]. specialize (Hpos w c Hw).
      simpl in Hpos. by case_decide.
    + case_decide; [lia|done].
  - rewrite lookup_empty. cbn [default from_option id]. case_decide; [lia|done].
Qed.

Lemma count_tables_context counts context :
  count_tables counts →
  is_Some (counts !! context) ↔ ∃ w, 0 < count_of counts context w.
Proof.
  intros Htables. split.
  - intros [table Hctx]. destruct (Htables _ _ Hctx) as [Hne Hpos].
    destruct (map_choose _ Hne) as (w & c & Hw). exists w.
    unfold count_of. rewrite Hctx. simpl. rewrite Hw. simpl.
    by apply (Hpos w c).
  - intros [w Hw]. unfold count_of in Hw.
    destruct (counts !! context); [done|].
    simpl in Hw. rewrite lookup_empty in Hw. simpl in Hw. lia.
Qed.

Lemma count_of_built (observations : list (K * string)) context w :
  count_of (count_all observations) context w = occurrences (context, w) observations.
Proof.
  unfold count_all. rewrite count_of_count_all.
  unfold count_of. rewrite lookup_empty. cbn [default from_option id].
  rewrite lookup_empty. cbn [default from_option id]. lia.
Qed.

Lemma total_of_built (observations : list (K * string)) context :
  total_of (count_all observations) context = occurrences context observations.*1.
Proof.
  unfold count_all. rewrite total_of_count_all.
  unfold total_of. rewrite lookup_empty. cbn [default from_option id].
  rewrite total_count_empty. lia.
Qed.

Lemma count_all_tables (observations : list (K * string)) :
  count_tables (count_all observations).
Proof. apply count_all_count_tables, map_Forall_empty. Qed.

(** The model of a list of observations, entry by entry. *)
Lemma built_model_lookup (observations : list (K * string)) context w :
  ((normalized <$> count_all observations) !! context ≫= (.!! w)) =
    if decide (0 < occurrences (context, w) observations)
    then Some (fdiv (round_int (occurrences (context, w) observations))
                     (round_int (occurrences context observations.*1)))
    else None.
Proof.
  pose proof (count_tables_lookup _ context w (count_all_tables observations)) as Hw.
  rewrite count_of_built in Hw.
  pose proof (total_of_built observations context) as Htotal.
  unfold total_of in Htotal. rewrite lookup_fmap.
  destruct (count_all observations !! context) as [table|] eqn:Hctx;
    cbn [default from_option id fmap option_fmap option_map mbind option_bind] in *.
  - unfold normalized. rewrite lookup_fmap, Hw, Htotal. by case_decide.
  - rewrite lookup_empty in Hw. by case_decide.
Qed.

Lemma built_model_follows (observations : list (K * string)) context w :
  (∃ distribution, (normalized <$> count_all observations) !! context = Some distribution ∧
                   w ∈ dom distribution) ↔
  (context, w) ∈ observations.
Proof.
  rewrite <- occurrences_pos.
  pose proof (built_model_lookup observations context w) as Hlookup.
  split.
  - intros (d & Hd & Hw). rewrite Hd in Hlookup.
    apply elem_of_dom in Hw as [p Hp].
    cbn [mbind option_bind] in Hlookup. rewrite Hp in Hlookup.
    by case_decide.
  - intros Hpos. case_decide; [|done].
    destruct ((normalized <$> count_all observations) !! context) as [d|]; [|done].
    exists d. split; [done|]. cbn [mbind option_bind] in Hlookup.
    apply elem_of_dom. by eexists.
Qed.

Lemma built_model_dom (observations : list (K * string)) :
  dom (normalized <$> count_all observations) =@{gset K} list_to_set observations.*1.
Proof.
  apply set_eq. intros context.
  rewrite dom_fmap, elem_of_list_to_set, list_elem_of_fmap.
  rewrite elem_of_dom, (count_tables_context _ _ (count_all_tables observations)).
  split.
  - intros [w Hw]. rewrite count_of_built in Hw.
    apply occurrences_pos in Hw. by exists (context, w).
  - intros ([c w] & -> & Hin). exists w.
    rewrite count_of_built. by apply occurrences_pos.
Qed.
Lemma count_all_in_range (observations : list (K * string)) :
  Z.of_nat (length observations) < float_overflow →
  in_range (count_all observations) = true.
Proof.
  intros Hlen. apply bool_decide_eq_true. intros context table Htable. simpl.
  pose proof (total_of_built observations context) as Htotal.
  unfold total_of in Htotal. rewrite Htable in Htotal.
  cbn [default from_option id] in Htotal. rewrite Htotal.
  pose proof (occurrences_le_length context observations.*1) as Hle.
  rewrite length_fmap in Hle. lia.
Qed.
End Frequencies.

(** ** Adjacent words of a list *)

Lemma adjacent_pairs (word_list : list string) (a b : string) :
  (a, b) ∈ zip word_list (drop 1 word_list) ↔
  ∃ before after, word_list = before ++ a :: b :: after.
Proof.
  induction word_list as [|x l IH].
  - split; [by intros ?%elem_of_nil|]. intros (before & after & Heq).
    by destruct before.
  - destruct l as [|y l].
    + split; [by intros ?%elem_of_nil|]. intros (before & after & Heq).
      destruct before as [|? [|? ?]]; discriminate.
    + change (zip (x :: y :: l) (drop 1 (x :: y :: l)))
        with ((x, y) :: zip (y :: l) (drop 1 (y :: l))).
      rewrite elem_of_cons, IH. split.
      * intros [[= -> ->]|(before & after & ->)].
        -- by exists [], l.
        -- by exists (x :: before), after.
      * intros (before & after & Heq). destruct before as [|x' before].
        -- left. by simplify_eq/=.
        -- right. simplify_eq/=. by exists before, after.
Qed.

Lemma adjacent_triples (word_list : list string) (a b c : string) :
  ((a, b), c) ∈ zip3 word_list ↔
  ∃ before after, word_list = before ++ a :: b :: c :: after.
Proof.
  induction word_list as [|x l IH].
  - split; [by intros ?%elem_of_nil|]. intros (before & after & Heq).
    by destruct before.
  - destruct l as [|y [|z l]].
    + split; [by intros ?%elem_of_nil|]. intros (before & after & Heq).
      destruct before as [|? [|? ?]]; discriminate.
    + split; [by intros ?%elem_of_nil|]. intros (before & after & Heq).
      destruct before as [|? [|? [|? ?]]]; discriminate.
    + change (zip3 (x :: y :: z :: l)) with (((x, y), z) :: zip3 (y :: z :: l)).
      rewrite elem_of_cons, IH. split.
      * intros [[= -> -> ->]|(before & after & ->)].
        -- by exists [], l.
        -- by exists (x :: before), after.
      * intros (before & after & Heq). destruct before as [|x' before].
        -- left. by simplify_eq/=.
        -- right. simplify_eq/=. by exists before, after.
Qed.

Lemma zip_fst_take {A B} (l : list A) (k : list B) :
  (zip l k).*1 = take (length k) l.
Proof.
  revert k. induction l as [|x l IH]; intros [|y k]; simpl; try done.
  by rewrite IH.
Qed.

Lemma pairs_contexts (word_list : list string) :
  (zip word_list (drop 1 word_list)).*1 = take (length word_list - 1) word_list.
Proof. by rewrite zip_fst_take, length_drop. Qed.

Lemma triples_contexts (word_list : list string) :
  (zip3 word_list).*1 =
    take (length word_list - 2) (zip word_list (drop 1 word_list)).
Proof. unfold zip3. by rewrite zip_fst_take, length_drop. Qed.

Lemma pairs_length (word_list : list string) :
  (length (zip word_list (drop 1 word_list)) ≤ length word_list)%nat.
Proof. rewrite length_zip_with. lia. Qed.

Lemma triples_length (word_list : list string) :
  (length (zip3 word_list) ≤ length word_list)%nat.
Proof. unfold zip3. rewrite !length_zip_with. lia. Qed.

(** A model that is returned is the model of the counts of all pairs. *)
Lemma calculate_bigrams_Ok word_list model :
  calculate_bigrams word_list = Ok model →
  model = normalized <$> count_all (zip word_list (drop 1 word_list)).
Proof.
  rewrite calculate_bigrams_spec. destruct (in_range _); [|done].
  by intros [= <-].
Qed.

Lemma calculate_trigrams_Ok word_list model :
  calculate_trigrams word_list = Ok model →
  model = normalized <$> count_all (zip3 word_list).
Proof.
  rewrite calculate_trigrams_spec. destruct (in_range _); [|done].
  by intros [= <-].
Qed.

(** A list whose length is in the range of a float gives a model. *)
Lemma calculate_bigrams_bounded word_list :
  Z.of_nat (length word_list) < float_overflow →
  calculate_bigrams word_list =
    Ok (normalized <$> count_all (zip word_list (drop 1 word_list))).
Proof.
  intros Hlen. rewrite calculate_bigrams_spec, count_all_in_range; [done|].
  pose proof (pairs_length word_list). lia.
Qed.

Lemma calculate_trigrams_bounded word_list :
  Z.of_nat (length word_list) < float_overflow →
  calculate_trigrams word_list = Ok (normalized <$> count_all (zip3 word_list)).
Proof.
  intros Hlen. rewrite calculate_trigrams_spec, count_all_in_range; [done|].
  pose proof (triples_length word_list). lia.
Qed.

(** C4. On every list of words, [calculate_bigrams] and
    [calculate_trigrams], which normalize the table of a context again
    after every counted pair or triple, do what the algorithm does that
    counts all pairs or triples first and then normalizes the table of
    each context once; on a list whose length is in the range of a float
    both return a model, and it is the same model. *)
Theorem calculate_ngrams_refine_specification (word_list : list string) :
  calculate_bigrams word_list = build_bigram word_list ∧
  calculate_trigrams word_list = build_trigram word_list ∧
  (Z.of_nat (length word_list) < float_overflow →
   (∃ model, calculate_bigrams word_list = Ok model ∧
             build_bigram word_list = Ok model) ∧
   (∃ model, calculate_trigrams word_list = Ok model ∧
             build_trigram word_list = Ok model)).
Proof.
  assert (Hbigrams : calculate_bigrams word_list = build_bigram word_list).
  { unfold build_bigram. by rewrite calculate_bigrams_spec, build_model_spec. }
  assert (Htrigrams : calculate_trigrams word_list = build_trigram word_list).
  { unfold build_trigram. by rewrite calculate_trigrams_spec, build_model_spec. }
  split; [done|]. split; [done|]. intros Hlen. split; eexists; split.
  - by apply calculate_bigrams_bounded.
  - rewrite <- Hbigrams. by apply calculate_bigrams_bounded.
  - by apply calculate_trigrams_bounded.
  - rewrite <- Htrigrams. by apply calculate_trigrams_bounded.
Qed.

(** X11. Maximum-likelihood estimates.  On a list whose length is in the
    range of a float, the bigram model gives to [w1] after [w0] the float
    quotient of the number of places of the list where [w0] is followed by
    [w1] by the number of places where [w0] is followed by a word, and has
    no entry when [w0] is never followed by [w1]; the trigram model does
    the same for a word after a pair of adjacent words. *)
Theorem calculate_ngrams_frequencies (word_list : list string) :
  Z.of_nat (length word_list) < float_overflow →
  (∃ model, calculate_bigrams word_list = Ok model ∧
     ∀ w0 w1, (model !! w0 ≫= (.!! w1)) =
       if decide (0 < occurrences (w0, w1) (zip word_list (drop 1 word_list)))
       then Some (fdiv
                    (round_int (occurrences (w0, w1) (zip word_list (drop 1 word_list))))
                    (round_int (occurrences w0 (take (length word_list - 1) word_list))))
       else None) ∧
  (∃ model, calculate_trigrams word_list = Ok model ∧
     ∀ w0 w1 w2, (model !! (w0, w1) ≫= (.!! w2)) =
       if decide (0 < occurrences (w0, w1, w2) (zip3 word_list))
       then Some (fdiv
                    (round_int (occurrences (w0, w1, w2) (zip3 word_list)))
                    (round_int (occurrences (w0, w1)
                                  (take (length word_list - 2)
                                     (zip word_list (drop 1 word_list))))))
       else None).
Proof.
  intros Hlen. split; eexists.
  - split; [by apply calculate_bigrams_bounded|]. intros w0 w1.
    rewrite built_model_lookup. by rewrite pairs_contexts.
  - split; [by apply calculate_trigrams_bounded|]. intros w0 w1 w2.
    rewrite built_model_lookup. by rewrite triples_contexts.
Qed.

(** X12. What the built models contain, in terms of the list of words, on
    a list whose length is in the range of a float: [w1] is an item of the
    distribution of [w0] in the bigram model exactly when [w0 w1] occurs in
    the list, the keys of the bigram model are the words of the list but
    its last position, and [w2] is an item of the distribution of
    [(w0, w1)] in the trigram model exactly when [w0 w1 w2] occurs in the
    list. *)
Theorem calculate_ngrams_support (word_list : list string) :
  Z.of_nat (length word_list) < float_overflow →
  (∃ model, calculate_bigrams word_list = Ok model ∧
     dom model = list_to_set (take (length word_list - 1) word_list) ∧
     ∀ w0 w1, follows_bigram model w0 w1 ↔
              ∃ before after, word_list = before ++ w0 :: w1 :: after) ∧
  (∃ model, calculate_trigrams word_list = Ok model ∧
     ∀ w0 w1 w2,
       (∃ distribution, model !! (w0, w1) = Some distribution ∧ w2 ∈ dom distribution) ↔
       ∃ before after, word_list = before ++ w0 :: w1 :: w2 :: after).
Proof.
  intros Hlen. split; eexists.
  - split; [by apply calculate_bigrams_bounded|]. split.
    + by rewrite built_model_dom, pairs_contexts.
    + intros w0 w1. unfold follows_bigram.
      by rewrite built_model_follows, adjacent_pairs.
  - split; [by apply calculate_trigrams_bounded|]. intros w0 w1 w2.
    by rewrite built_model_follows, adjacent_triples.
Qed.

(** X13. Lists too short to hold a pair or a triple give the empty model,
    and only they do. *)
Theorem calculate_ngrams_empty (word_list : list string) :
  (calculate_bigrams word_list = Ok ∅ ↔ (length word_list < 2)%nat) ∧
  (calculate_trigrams word_list = Ok ∅ ↔ (length word_list < 3)%nat).
Proof.
  split.
  - split.
    + intros Hempty%calculate_bigrams_Ok. apply (f_equal dom) in Hempty.
      rewrite built_model_dom, dom_empty_L, pairs_contexts in Hempty.
      destruct word_list as [|x [|y l]]; simpl; [lia..|].
      exfalso. apply (not_elem_of_empty (C:=gset string) x).
      rewrite Hempty. apply elem_of_list_to_set. simpl. apply list_elem_of_here.
    + intros Hlen. destruct word_list as [|x [|y l]]; simpl in Hlen; [done..|lia].
  - split.
    + intros Hempty%calculate_trigrams_Ok. apply (f_equal dom) in Hempty.
      rewrite built_model_dom, dom_empty_L in Hempty.
      destruct word_list as [|x [|y [|z l]]]; simpl; [lia..|].
      exfalso.
      change (zip3 (x :: y :: z :: l)) with (((x, y), z) :: zip3 (y :: z :: l))
        in Hempty.
      rewrite fmap_cons in Hempty.
      apply (not_elem_of_empty (C:=gset (string * string)) (x, y)).
      rewrite Hempty. apply elem_of_list_to_set. apply list_elem_of_here.
    + intros Hlen.
      destruct word_list as [|x [|y [|z l]]]; simpl in Hlen; [done..|lia].
Qed.

(** ** The unigram model *)

Lemma count_unigrams_positive unigrams word_list :
  map_Forall (λ _ c, 0 < c) unigrams →
  map_Forall (λ _ c, 0 < c) (count_unigrams unigrams word_list).
Proof.
  revert unigrams. induction word_list as [|word word_list IH]; intros unigrams Hpos;
    [done|].
  cbn [count_unigrams]. apply IH.
  destruct (unigrams !! word) as [c|] eqn:Hword.
  - apply map_Forall_insert_2; [|done]. specialize (Hpos word c Hword).
    simpl in Hpos. lia.
  - apply map_Forall_insert_2; [lia|done].
Qed.

Lemma count_unigrams_lookup unigrams word_list w :
  default 0 (count_unigrams unigrams word_list !! w) =
    default 0 (unigrams !! w) + occurrences w word_list.
Proof.
  revert unigrams. induction word_list as [|word word_list IH]; intros unigrams.
  - cbn. unfold occurrences. simpl. lia.
  - cbn [count_unigrams]. rewrite IH, occurrences_cons.
    destruct (decide (word = w)) as [->|Hne].
    + destruct (unigrams !! w) as [c|] eqn:Hw; rewrite lookup_insert_eq; simpl; lia.
    + destruct (unigrams !! word) as [c|];
        rewrite lookup_insert_ne by done; lia.
Qed.

Lemma count_unigrams_total unigrams word_list :
  total_count (count_unigrams unigrams word_list) =
    total_count unigrams + Z.of_nat (length word_list).
Proof.
  revert unigrams. induction word_list as [|word word_list IH]; intros unigrams.
  - cbn. lia.
  - cbn [count_unigrams length]. rewrite IH.
    destruct (unigrams !! word) as [c|] eqn:Hword;
      rewrite total_count_insert, Hword; simpl; lia.
Qed.

Lemma count_unigrams_table word_list :
  word_list ≠ [] → count_table (count_unigrams ∅ word_list).
Proof.
  intros Hne. split.
  - intros Hempty. pose proof (count_unigrams_total ∅ word_list) as Htotal.
    rewrite Hempty, total_count_empty in Htotal.
    destruct word_list; [done|]. simpl in Htotal. lia.
  - apply count_unigrams_positive, map_Forall_empty.
Qed.

Lemma calculate_unigrams_mle (word_list : list string) :
  word_list ≠ [] → Z.of_nat (length word_list) < float_overflow →
  ∃ model,
    calculate_unigrams word_list = Ok model ∧
    ∀ w, model !! w =
      if decide (w ∈ word_list)
      then Some (fdiv (round_int (occurrences w word_list))
                      (round_int (Z.of_nat (length word_list))))
      else None.
Proof.
  intros Hne Hlen. pose proof (count_unigrams_table word_list Hne) as Htable.
  pose proof (count_unigrams_total ∅ word_list) as Htotal.
  rewrite total_count_empty, Z.add_0_l in Htotal.
  exists (normalized (count_unigrams ∅ word_list)). split.
  - unfold calculate_unigrams.
    rewrite (counts_to_probabilities_count_table _ Htable).
    rewrite bool_decide_eq_true_2; [done|]. by rewrite Htotal.
  - intros w. unfold normalized. rewrite lookup_fmap, Htotal.
    pose proof (count_unigrams_lookup ∅ word_list w) as Hw.
    rewrite lookup_empty in Hw. simpl in Hw.
    destruct (count_unigrams ∅ word_list !! w) as [c|] eqn:Hc; simpl in *.
    + destruct Htable as [_ Hpos]. specialize (Hpos w c Hc). simpl in Hpos.
      rewrite decide_True by (apply occurrences_pos; lia). by rewrite Hw.
    + rewrite decide_False; [done|]. intros Hin%occurrences_pos. lia.
Qed.


(** * Further properties *)

(** ** Sampling *)

Lemma running_totals_foldl (P : float → Prop) total xs :
  P total → Forall P (running_totals total xs) → P (foldl fadd total xs).
Proof.
  revert total. induction xs as [|x xs IH]; intros total Htotal Hall; [done|].
  cbn [running_totals foldl] in *. apply Forall_cons in Hall as [Hx Hall].
  by apply IH.
Qed.

(** X1. [select_random] is inverse-CDF sampling over the enumeration of the
    dictionary, in float arithmetic: it returns [item] exactly when the sum
    passes the assertion and [item] is at the first position of the
    enumeration at which the running float total exceeds the draw; it then
    has read one draw. *)
Theorem select_random_inverse_cdf (distribution : gmap string float) (i j : nat)
    (item : string) :
  select_random distribution i = Ok (item, j) ↔
  j = S i ∧ sum_near_one distribution = true ∧
  ∃ before p after,
    enum distribution = before ++ (item, p) :: after ∧
    Forall (λ t, flt (rand i) t = false) (running_totals float_zero before.*2) ∧
    flt (rand i) (fadd (fsum before.*2) p) = true.
Proof.
  rewrite select_random_unfold.
  rewrite <- (select_loop_first (rand i) float_zero (enum distribution) item).
  destruct (sum_near_one distribution).
  - destruct (select_loop _ _ _) as [item'|e]; split.
    + by intros [= -> <-].
    + by intros (-> & _ & [= ->]).
    + done.
    + by intros (_ & _ & ?).
  - split; [done|]. by intros (_ & ? & _).
Qed.


Lemma sum_near_one_empty : sum_near_one ∅ = false.
Proof. unfold sum_near_one. by rewrite (proj2 (enum_nil ∅)). Qed.

(** X3. When the float sum of the values of the dictionary is not within
    1e-6 of 1.0, [select_random] fails with AssertionError; this is what
    happens on the empty dictionary. *)
Theorem select_random_rejects_bad_sum (distribution : gmap string float) (i : nat) :
  (sum_near_one distribution = false →
   select_random distribution i = Err AssertionError) ∧
  select_random ∅ i = Err AssertionError.
Proof.
  split.
  - intros Hfar. by rewrite select_random_unfold, Hfar.
  - by rewrite select_random_unfold, sum_near_one_empty.
Qed.

(** X4. [select_random] never returns a key whose value is 0. *)
Theorem select_random_skips_zero (distribution : gmap string float) (i j : nat)
    (item : string) (p : float) :
  distribution !! item = Some p → SFeqb p float_zero = true →
  select_random distribution i ≠ Ok (item, j).
Proof.
  intros Hitem Hp Hrun. rewrite select_random_unfold in Hrun.
  destruct (sum_near_one distribution); [|done].
  destruct (select_loop _ _ _) as [item'|] eqn:Hloop; [|done].
  injection Hrun as -> _.
  apply select_loop_first in Hloop
    as (before & q & after & Henum & Hbefore & Hq).
  assert (Hin : (item, q) ∈ enum distribution).
  { rewrite Henum. apply elem_of_app. right. apply list_elem_of_here. }
  apply enum_lookup in Hin. rewrite Hitem in Hin. injection Hin as <-.
  rewrite (flt_fadd_zero _ _ _ Hp) in Hq.
  pose proof (running_totals_foldl (λ t, flt (rand i) t = false)
                float_zero before.*2
                (flt_zero_nonneg _ false (proj1 (rand_range i))) Hbefore) as Hlast.
  simpl in Hlast. congruence.
Qed.

(** ** Generated texts *)

Lemma bigram_text_loop_chain n bigrams w0 text i w s j :
  bigram_text_loop n bigrams w0 text i = Ok ((w, s), j) →
  ∃ ws, length ws = n ∧ s = text +:+ join_words ws ∧
        bigram_chain bigrams (w0 :: ws) ∧ j = (i + n)%nat.
Proof.
  revert w0 text i. induction n as [|n IH]; intros w0 text i Hrun.
  - injection Hrun as <- <- <-. exists []. repeat split; [|lia].
    by rewrite string_app_nil_r.
  - apply M_bind_Ok in Hrun as (d & i' & Hd & Hrun).
    apply lift_getitem_Ok in Hd as [Hd ->].
    apply M_bind_Ok in Hrun as (w1 & i' & Hw1 & Hrun).
    apply select_random_Ok in Hw1 as [-> Hw1].
    apply IH in Hrun as (ws & Hlen & -> & Hws & ->).
    exists (w1 :: ws). repeat split.
    + simpl. by rewrite Hlen.
    + apply join_words_snoc.
    + by exists d.
    + done.
    + lia.
Qed.

Lemma trigram_text_step_follows bigrams trigrams st i st' j :
  trigram_text_step bigrams trigrams st i = Ok (st', j) →
  ∃ w, follows_trigram bigrams trigrams (second_word st) (next_word st) w ∧
       st' = TrigramState (second_word st) (next_word st) w
               (result_text st +:+ (w +:+ " ")) ∧
       j = S i.
Proof.
  unfold trigram_text_step, follows_trigram. intros Hrun.
  apply M_bind_Ok in Hrun as (w & i' & Hw & Hrun).
  injection Hrun as <- <-. exists w.
  destruct (trigrams !! (second_word st, next_word st)) as [d0|] eqn:Hctx.
  - apply M_bind_Ok in Hw as (d & i'' & Hd & Hw).
    apply lift_getitem_Ok in Hd as [Hd ->].
    apply select_random_Ok in Hw as [-> Hw]. by simplify_eq.
  - apply M_bind_Ok in Hw as (d & i'' & Hd & Hw).
    apply lift_getitem_Ok in Hd as [Hd ->].
    apply select_random_Ok in Hw as [-> Hw].
    repeat split. by exists d.
Qed.

Lemma trigram_text_loop_chain n bigrams trigrams st i st' j :
  trigram_text_loop n bigrams trigrams st i = Ok (st', j) →
  ∃ ws, length ws = n ∧ result_text st' = result_text st +:+ join_words ws ∧
        trigram_chain bigrams trigrams (second_word st :: next_word st :: ws) ∧
        j = (i + n)%nat.
Proof.
  revert st i. induction n as [|n IH]; intros st i Hrun.
  - injection Hrun as <- <-. exists []. repeat split; [|lia].
    by rewrite string_app_nil_r.
  - apply M_bind_Ok in Hrun as (st1 & i' & Hstep & Hrun).
    apply trigram_text_step_follows in Hstep as (w & Hw & -> & ->).
    apply IH in Hrun as (ws & Hlen & -> & Hws & ->).
    exists (w :: ws). repeat split.
    + simpl. by rewrite Hlen.
    + apply join_words_snoc.
    + done.
    + done.
    + lia.
Qed.

Lemma random_bigram_text_walk first_word bigrams num_words i s j :
  random_bigram_text first_word bigrams num_words i = Ok (s, j) →
  ∃ ws,
    s = rstrip (join_words (first_word :: ws)) ∧
    length ws = S (Z.to_nat (num_words - 2)) ∧
    bigram_chain bigrams (first_word :: ws) ∧
    j = (i + length ws)%nat.
Proof.
  unfold random_bigram_text. intros Hrun.
  apply M_bind_Ok in Hrun as (d & i' & Hd & Hrun).
  apply lift_getitem_Ok in Hd as [Hd ->].
  apply M_bind_Ok in Hrun as (w & i' & Hw & Hrun).
  apply select_random_Ok in Hw as [-> Hw].
  apply M_bind_Ok in Hrun as ([w' text] & i' & Hloop & Hrun).
  injection Hrun as <- <-.
  apply bigram_text_loop_chain in Hloop as (ws & Hlen & -> & Hws & ->).
  exists (w :: ws). repeat split.
  - f_equal. change (first_word :: w :: ws) with ([first_word; w] ++ ws).
    rewrite join_words_app. by f_equal.
  - simpl. by rewrite Hlen.
  - by exists d.
  - done.
  - simpl. lia.
Qed.

(** X5. A text returned by [random_bigram_text] is a walk in the bigram
    model: it is made of the first word followed by [max 1 (num_words - 1)]
    sampled words, each an item of the distribution of the word before it,
    and one draw is read per sampled word. *)
Theorem random_bigram_text_chain first_word bigrams num_words i s j :
  random_bigram_text first_word bigrams num_words i = Ok (s, j) →
  ∃ ws,
    s = rstrip (join_words (first_word :: ws)) ∧
    length ws = S (Z.to_nat (num_words - 2)) ∧
    bigram_chain bigrams (first_word :: ws) ∧
    j = (i + length ws)%nat.
Proof. apply random_bigram_text_walk. Qed.

Lemma random_trigram_text_walk first second bigrams trigrams num_words i s j :
  random_trigram_text first second bigrams trigrams num_words i = Ok (s, j) →
  ∃ hidden ws,
    s = rstrip (join_words (first :: second :: ws)) ∧
    length ws = Z.to_nat (num_words - 2) ∧
    (∃ distribution, trigrams !! (first, second) = Some distribution ∧
                     hidden ∈ dom distribution) ∧
    trigram_chain bigrams trigrams (second :: hidden :: ws) ∧
    j = (i + 1 + length ws)%nat.
Proof.
  unfold random_trigram_text. intros Hrun.
  apply M_bind_Ok in Hrun as (d & i' & Hd & Hrun).
  apply lift_getitem_Ok in Hd as [Hd ->].
  apply M_bind_Ok in Hrun as (w & i' & Hw & Hrun).
  apply select_random_Ok in Hw as [-> Hw].
  apply M_bind_Ok in Hrun as (st & i' & Hloop & Hrun).
  injection Hrun as <- <-.
  apply trigram_text_loop_chain in Hloop as (ws & Hlen & -> & Hws & ->).
  exists w, ws. repeat split; [|done|by exists d|done|lia].
  f_equal. change (first :: second :: ws) with ([first; second] ++ ws).
  rewrite join_words_app. by f_equal.
Qed.

(** X6. What [random_trigram_text] returns: the two seed words followed by
    [max 0 (num_words - 2)] sampled words.  One more word is sampled than
    is returned: a word [hidden] drawn from [trigrams[(first, second)]]
    before the loop, and the sampled words continue the sequence
    [second, hidden], each following the two words before it in that
    sequence by the trigram distribution or, when the pair is not a key, by
    the bigram distribution of the older word. *)
Theorem random_trigram_text_chain first second bigrams trigrams num_words i s j :
  random_trigram_text first second bigrams trigrams num_words i = Ok (s, j) →
  ∃ hidden ws,
    s = rstrip (join_words (first :: second :: ws)) ∧
    length ws = Z.to_nat (num_words - 2) ∧
    (∃ distribution, trigrams !! (first, second) = Some distribution ∧
                     hidden ∈ dom distribution) ∧
    trigram_chain bigrams trigrams (second :: hidden :: ws) ∧
    j = (i + 1 + length ws)%nat.
Proof. apply random_trigram_text_walk. Qed.

(** ** Failures of generation *)

Lemma select_random_covers distribution i :
  covers_draws distribution →
  ∃ item, select_random distribution i = Ok (item, S i) ∧ item ∈ dom distribution.
Proof.
  intros [Hnear Hsum]. apply select_random_sum_exceeds; [done|].
  apply flt_below_one; [apply rand_range|done].
Qed.

Lemma unigram_text_loop_Err n unigrams text i e :
  unigram_text_loop n unigrams text i = Err e → e = AssertionError.
Proof.
  revert text i. induction n as [|n IH]; intros text i; [done|].
  cbn [unigram_text_loop]. unfold mbind, M_bind.
  destruct (select_random unigrams i) as [[w i']|e'] eqn:Hsel.
  - apply IH.
  - intros [= <-]. by eapply select_random_Err.
Qed.

Lemma unigram_text_loop_total n unigrams text i :
  covers_draws unigrams →
  ∃ s, unigram_text_loop n unigrams text i = Ok (s, (i + n)%nat).
Proof.
  intros Hcovers. revert text i. induction n as [|n IH]; intros text i.
  - exists text. cbn. unfold mret, M_ret. do 2 f_equal. lia.
  - cbn [unigram_text_loop]. unfold mbind, M_bind.
    destruct (select_random_covers unigrams i Hcovers) as (w & -> & _).
    destruct (IH (text +:+ (w +:+ " ")) (S i)) as [s ->].
    exists s. do 2 f_equal. lia.
Qed.

Lemma random_unigram_text_succeeds unigrams num_words i :
  covers_draws unigrams →
  ∃ ws,
    random_unigram_text unigrams num_words i =
      Ok (rstrip (join_words ws), (i + Z.to_nat num_words)%nat) ∧
    length ws = Z.to_nat num_words ∧
    Forall (λ w, w ∈ dom unigrams) ws.
Proof.
  intros Hcovers.
  destruct (unigram_text_loop_total (Z.to_nat num_words) unigrams "" i Hcovers)
    as [s Hloop].
  assert (Hrun : random_unigram_text unigrams num_words i =
                   Ok (rstrip s, (i + Z.to_nat num_words)%nat)).
  { unfold random_unigram_text, mbind, M_bind. by rewrite Hloop. }
  destruct (random_unigram_text_Ok _ _ _ _ _ Hrun) as (ws & Hlen & Hs & Hws).
  exists ws. by rewrite Hrun, Hs.
Qed.

Lemma random_unigram_text_Err unigrams num_words i e :
  random_unigram_text unigrams num_words i = Err e → e = AssertionError.
Proof.
  unfold random_unigram_text, mbind, M_bind.
  destruct (unigram_text_loop _ _ _ _) as [[s j]|e'] eqn:Hloop; [done|].
  intros [= <-]. by eapply unigram_text_loop_Err.
Qed.


(** The failures of the generators: a lookup of a context that is not a
    key, or the assertions of [select_random]. *)
Lemma bigram_text_loop_Err n bigrams w text i e :
  bigram_text_loop n bigrams w text i = Err e →
  e = KeyError ∨ e = AssertionError.
Proof.
  revert w text i. induction n as [|n IH]; intros w text i; [done|].
  cbn [bigram_text_loop]. unfold mbind, M_bind, lift, getitem.
  destruct (bigrams !! w) as [d|] eqn:Hd; [|intros [= <-]; by left].
  destruct (select_random d i) as [[w1 i1]|e1] eqn:Hsel.
  - apply IH.
  - intros [= <-]. right. by eapply select_random_Err.
Qed.

Lemma trigram_text_step_Err bigrams trigrams st i e :
  trigram_text_step bigrams trigrams st i = Err e →
  e = KeyError ∨ e = AssertionError.
Proof.
  unfold trigram_text_step, mbind, M_bind, lift, getitem.
  destruct (trigrams !! (second_word st, next_word st)) as [d|] eqn:Hd.
  - destruct (select_random d i) as [[w1 i1]|e1] eqn:Hsel; [done|].
    intros [= <-]. right. by eapply select_random_Err.
  - destruct (bigrams !! second_word st) as [d|] eqn:Hd'; [|intros [= <-]; by left].
    destruct (select_random d i) as [[w1 i1]|e1] eqn:Hsel; [done|].
    intros [= <-]. right. by eapply select_random_Err.
Qed.

Lemma trigram_text_loop_Err n bigrams trigrams st i e :
  trigram_text_loop n bigrams trigrams st i = Err e →
  e = KeyError ∨ e = AssertionError.
Proof.
  revert st i. induction n as [|n IH]; intros st i; [done|].
  cbn [trigram_text_loop]. unfold mbind at 1. unfold M_bind at 1.
  destruct (trigram_text_step bigrams trigrams st i) as [[st1 i1]|e1] eqn:Hstep.
  - apply IH.
  - intros [= <-]. by eapply trigram_text_step_Err.
Qed.

Lemma random_bigram_text_Err first_word bigrams num_words i e :
  random_bigram_text first_word bigrams num_words i = Err e →
  e = KeyError ∨ e = AssertionError.
Proof.
  unfold random_bigram_text, mbind, M_bind, lift, getitem.
  destruct (bigrams !! first_word) as [d|] eqn:Hd; [|intros [= <-]; by left].
  destruct (select_random d i) as [[w1 i1]|e1] eqn:Hsel.
  - destruct (bigram_text_loop _ _ _ _ _) as [[st i2]|e2] eqn:Hloop; [done|].
    intros [= <-]. by eapply bigram_text_loop_Err.
  - intros [= <-]. right. by eapply select_random_Err.
Qed.

Lemma random_trigram_text_Err first second bigrams trigrams num_words i e :
  random_trigram_text first second bigrams trigrams num_words i = Err e →
  e = KeyError ∨ e = AssertionError.
Proof.
  unfold random_trigram_text, mbind, M_bind, lift, getitem.
  destruct (trigrams !! (first, second)) as [d|] eqn:Hd; [|intros [= <-]; by left].
  destruct (select_random d i) as [[w1 i1]|e1] eqn:Hsel.
  - destruct (trigram_text_loop _ _ _ _ _) as [[st i2]|e2] eqn:Hloop; [done|].
    intros [= <-]. by eapply trigram_text_loop_Err.
  - intros [= <-]. right. by eapply select_random_Err.
Qed.

(** X8. The only failures of [random_bigram_text] and of
    [random_trigram_text] are KeyError, for a lookup of a context that is
    not a key, and the AssertionError of [select_random]. *)
Theorem generation_fails_with_KeyError_or_AssertionError bigrams trigrams :
  (∀ first_word num_words i e,
     random_bigram_text first_word bigrams num_words i = Err e →
     e = KeyError ∨ e = AssertionError) ∧
  (∀ first_word second_word num_words i e,
     random_trigram_text first_word second_word bigrams trigrams num_words i = Err e →
     e = KeyError ∨ e = AssertionError).
Proof.
  split.
  - intros first_word num_words i e. apply random_bigram_text_Err.
  - intros first_word second_word num_words i e. apply random_trigram_text_Err.
Qed.

(** In a model in which every word that can be sampled is a key, no
    lookup fails. *)
Lemma bigram_text_loop_no_KeyError n bigrams w text i :
  closed_model bigrams → is_Some (bigrams !! w) →
  bigram_text_loop n bigrams w text i ≠ Err KeyError.
Proof.
  intros Hclosed. revert w text i.
  induction n as [|n IH]; intros w text i [d Hd]; [done|].
  cbn [bigram_text_loop]. unfold mbind, M_bind, lift, getitem. rewrite Hd.
  destruct (select_random d i) as [[w1 i1]|e1] eqn:Hsel.
  - apply select_random_Ok in Hsel as [-> Hw1].
    apply IH, Hclosed. by exists w, d.
  - apply select_random_Err in Hsel as ->. done.
Qed.

Lemma random_bigram_text_no_KeyError first_word bigrams num_words i :
  closed_model bigrams → is_Some (bigrams !! first_word) →
  random_bigram_text first_word bigrams num_words i ≠ Err KeyError.
Proof.
  intros Hclosed [d Hd].
  unfold random_bigram_text, mbind, M_bind, lift, getitem. rewrite Hd.
  destruct (select_random d i) as [[w1 i1]|e1] eqn:Hsel.
  - apply select_random_Ok in Hsel as [-> Hw1].
    destruct (bigram_text_loop _ _ _ _ _) as [[st i2]|e2] eqn:Hloop; [done|].
    intros [= ->]. revert Hloop. apply bigram_text_loop_no_KeyError; [done|].
    apply Hclosed. by exists first_word, d.
  - apply select_random_Err in Hsel as ->. done.
Qed.

Lemma bigram_text_loop_total n bigrams w text i :
  covering_model bigrams → closed_model bigrams → is_Some (bigrams !! w) →
  ∃ st, bigram_text_loop n bigrams w text i = Ok (st, (i + n)%nat).
Proof.
  intros Hcovers Hclosed. revert w text i.
  induction n as [|n IH]; intros w text i [d Hd].
  - eexists. cbn. unfold mret, M_ret. do 2 f_equal. lia.
  - cbn [bigram_text_loop]. unfold mbind, M_bind, lift, getitem. rewrite Hd.
    destruct (select_random_covers d i (Hcovers w d Hd)) as (w1 & -> & Hw1).
    destruct (IH w1 (text +:+ (w1 +:+ " ")) (S i)) as [st ->].
    + apply Hclosed. by exists w, d.
    + exists st. do 2 f_equal. lia.
Qed.

Lemma random_bigram_text_succeeds first_word bigrams num_words i :
  covering_model bigrams → closed_model bigrams → is_Some (bigrams !! first_word) →
  ∃ s, random_bigram_text first_word bigrams num_words i =
         Ok (s, (i + S (Z.to_nat (num_words - 2)))%nat).
Proof.
  intros Hcovers Hclosed [d Hd].
  unfold random_bigram_text, mbind, M_bind, lift, getitem. rewrite Hd.
  destruct (select_random_covers d i (Hcovers _ d Hd)) as (w1 & -> & Hw1).
  destruct (bigram_text_loop_total (Z.to_nat (num_words - 2)) bigrams w1
              ("" +:+ first_word +:+ " " +:+ w1 +:+ " ") (S i) Hcovers Hclosed)
    as [[w s] ->].
  - apply Hclosed. by exists first_word, d.
  - exists (rstrip s). unfold mret, M_ret. do 2 f_equal; simpl; lia.
Qed.


Lemma trigram_text_step_closed bigrams trigrams st i :
  (∀ w, model_word trigrams w ∨ model_word bigrams w → is_Some (bigrams !! w)) →
  is_Some (bigrams !! second_word st) →
  match trigram_text_step bigrams trigrams st i with
  | Ok (st', j) =>
      j = S i ∧ second_word st' = next_word st ∧ is_Some (bigrams !! next_word st')
  | Err e => e = AssertionError
  end.
Proof.
  intros Hclosed [d2 Hd2].
  unfold trigram_text_step, mbind, M_bind, lift, getitem.
  destruct (trigrams !! (second_word st, next_word st)) as [d|] eqn:Hd.
  - destruct (select_random d i) as [[w1 i1]|e1] eqn:Hsel.
    + apply select_random_Ok in Hsel as [-> Hw1]. cbn.
      split; [done|]. split; [done|]. apply Hclosed. left. by eexists _, d.
    + by apply select_random_Err in Hsel.
  - rewrite Hd2. destruct (select_random d2 i) as [[w1 i1]|e1] eqn:Hsel.
    + apply select_random_Ok in Hsel as [-> Hw1]. cbn.
      split; [done|]. split; [done|]. apply Hclosed. right. by eexists _, d2.
    + by apply select_random_Err in Hsel.
Qed.

Lemma trigram_text_loop_no_KeyError n bigrams trigrams st i :
  (∀ w, model_word trigrams w ∨ model_word bigrams w → is_Some (bigrams !! w)) →
  is_Some (bigrams !! second_word st) → is_Some (bigrams !! next_word st) →
  trigram_text_loop n bigrams trigrams st i ≠ Err KeyError.
Proof.
  intros Hclosed. revert st i.
  induction n as [|n IH]; intros st i Hsecond Hnext; [done|].
  cbn [trigram_text_loop]. unfold mbind at 1. unfold M_bind at 1.
  pose proof (trigram_text_step_closed bigrams trigrams st i Hclosed Hsecond) as Hstep.
  destruct (trigram_text_step bigrams trigrams st i) as [[st1 i1]|e1].
  - destruct Hstep as (_ & Hst1 & Hnext1). apply IH; [|done]. by rewrite Hst1.
  - by rewrite Hstep.
Qed.

Lemma random_trigram_text_no_KeyError first second bigrams trigrams num_words i :
  (∀ w, model_word trigrams w ∨ model_word bigrams w → is_Some (bigrams !! w)) →
  is_Some (trigrams !! (first, second)) → is_Some (bigrams !! second) →
  random_trigram_text first second bigrams trigrams num_words i ≠ Err KeyError.
Proof.
  intros Hclosed [d Hd] Hsecond.
  unfold random_trigram_text, mbind, M_bind, lift, getitem. rewrite Hd.
  destruct (select_random d i) as [[w1 i1]|e1] eqn:Hsel.
  - apply select_random_Ok in Hsel as [-> Hw1].
    destruct (trigram_text_loop _ _ _ _ _) as [[st i2]|e2] eqn:Hloop; [done|].
    intros [= ->]. revert Hloop. apply trigram_text_loop_no_KeyError; [done|done|].
    apply Hclosed. left. by eexists _, d.
  - apply select_random_Err in Hsel as ->. done.
Qed.

Lemma trigram_text_loop_total n bigrams trigrams st i :
  covering_model bigrams → covering_model trigrams →
  (∀ w, model_word trigrams w ∨ model_word bigrams w → is_Some (bigrams !! w)) →
  is_Some (bigrams !! second_word st) → is_Some (bigrams !! next_word st) →
  ∃ st', trigram_text_loop n bigrams trigrams st i = Ok (st', (i + n)%nat).
Proof.
  intros Hbigrams Htrigrams Hclosed. revert st i.
  induction n as [|n IH]; intros st i [d2 Hd2] Hnext.
  - eexists. cbn. unfold mret, M_ret. do 2 f_equal. lia.
  - cbn [trigram_text_loop]. unfold mbind at 1. unfold M_bind at 1.
    assert (Hstep : ∃ w, is_Some (bigrams !! w) ∧
              trigram_text_step bigrams trigrams st i =
                Ok (TrigramState (second_word st) (next_word st) w
                      (result_text st +:+ (w +:+ " ")), S i)).
    { unfold trigram_text_step, mbind, M_bind, lift, getitem.
      destruct (trigrams !! (second_word st, next_word st)) as [d|] eqn:Hd.
      - destruct (select_random_covers d i (Htrigrams _ d Hd)) as (w & -> & Hw).
        exists w. split; [|done]. apply Hclosed. left. by eexists _, d.
      - rewrite Hd2.
        destruct (select_random_covers d2 i (Hbigrams _ d2 Hd2)) as (w & -> & Hw).
        exists w. split; [|done]. apply Hclosed. right. by eexists _, d2. }
    destruct Hstep as (w & Hw & ->).
    destruct (IH (TrigramState (second_word st) (next_word st) w
                    (result_text st +:+ (w +:+ " "))) (S i)) as [st' ->]; [done..|].
    exists st'. do 2 f_equal. lia.
Qed.

Lemma random_trigram_text_succeeds first second bigrams trigrams num_words i :
  covering_model bigrams → covering_model trigrams →
  (∀ w, model_word trigrams w ∨ model_word bigrams w → is_Some (bigrams !! w)) →
  is_Some (trigrams !! (first, second)) → is_Some (bigrams !! second) →
  ∃ s, random_trigram_text first second bigrams trigrams num_words i =
         Ok (s, (i + S (Z.to_nat (num_words - 2)))%nat).
Proof.
  intros Hbigrams Htrigrams Hclosed [d Hd] Hsecond.
  unfold random_trigram_text, mbind, M_bind, lift, getitem. rewrite Hd.
  destruct (select_random_covers d i (Htrigrams _ d Hd)) as (w1 & -> & Hw1).
  destruct (trigram_text_loop_total (Z.to_nat (num_words - 2)) bigrams trigrams
              (TrigramState first second w1 ("" +:+ first +:+ " " +:+ second +:+ " "))
              (S i) Hbigrams Htrigrams Hclosed) as [st ->].
  - done.
  - apply Hclosed. left. by eexists _, d.
  - exists (rstrip (result_text st)). unfold mret, M_ret. do 2 f_equal; simpl; lia.
Qed.


(** ** [text_to_list] *)

Lemma all_chars_app P (s t : string) :
  all_chars P (s +:+ t) = all_chars P s && all_chars P t.
Proof.
  induction s as [|a s IH]; [done|].
  rewrite string_app_cons. simpl. by rewrite IH, andb_assoc.
Qed.

Lemma all_chars_rev_app P (s t : string) :
  all_chars P (String.rev_app s t) = all_chars P s && all_chars P t.
Proof.
  revert t. induction s as [|a s IH]; intros t; [done|].
  simpl. rewrite IH. simpl. by destruct (P a), (all_chars P s).
Qed.

Lemma all_chars_rstrip P (s : string) :
  all_chars P s = true → all_chars P (rstrip s) = true.
Proof.
  induction s as [|a s IH]; [done|]. simpl.
  intros [Ha Hs]%andb_true_iff. specialize (IH Hs).
  destruct (rstrip s) as [|b t].
  - destruct (Ascii.is_space a); [done|]. simpl. by rewrite Ha.
  - cbn [all_chars] in *. by rewrite Ha.
Qed.

Lemma all_chars_impl (P Q : ascii → bool) (s : string) :
  (∀ a, P a = true → Q a = true) → all_chars P s = true → all_chars Q s = true.
Proof.
  intros HPQ. induction s as [|a s IH]; [done|]. simpl.
  intros [Ha Hs]%andb_true_iff. by rewrite (HPQ a Ha), IH.
Qed.

Lemma no_space_all_chars (w : string) :
  no_space w = all_chars (λ a, negb (Ascii.is_space a)) w.
Proof. induction w as [|a w IH]; [done|]. simpl. by rewrite IH. Qed.

Lemma clean_word_all_chars (w : string) : clean_word w = all_chars clean_char w.
Proof. induction w as [|a w IH]; [done|]. simpl. by rewrite IH. Qed.

Lemma string_map_compose (f g : ascii → ascii) (s : string) :
  string_map f (string_map g s) = string_map (λ a, f (g a)) s.
Proof. induction s as [|a s IH]; [done|]. simpl. by rewrite IH. Qed.

Lemma string_map_fixed (f : ascii → ascii) (P : ascii → bool) (s : string) :
  (∀ a, P a = true → f a = a) → all_chars P s = true → string_map f s = s.
Proof.
  intros Hf. induction s as [|a s IH]; [done|]. simpl.
  intros [Ha Hs]%andb_true_iff. by rewrite (Hf a Ha), IH.
Qed.

Lemma all_chars_string_map (f : ascii → ascii) (P : ascii → bool) (s : string) :
  (∀ a, P (f a) = true) → all_chars P (string_map f s) = true.
Proof.
  intros Hf. induction s as [|a s IH]; [done|]. simpl. by rewrite Hf, IH.
Qed.

Lemma text_to_list_unfold (contents : string) :
  text_to_list contents = String.words (string_map normalize_char contents).
Proof.
  unfold text_to_list, translate, lower. by rewrite string_map_compose.
Qed.

(** After [lower] and [translate] a character is white space or clean. *)
Lemma normalize_char_clean (a : ascii) :
  Ascii.is_space (normalize_char a) || clean_char (normalize_char a) = true.
Proof. destruct a as [[] [] [] [] [] [] [] []]; vm_compute; reflexivity. Qed.

(** [lower] and [translate] leave white space and clean characters alone. *)
Lemma normalize_char_fixed (a : ascii) :
  Ascii.is_space a || clean_char a = true → normalize_char a = a.
Proof.
  destruct a as [[] [] [] [] [] [] [] []]; vm_compute; intros Ha;
    (reflexivity || discriminate Ha).
Qed.

Lemma is_word_spec (w : string) : is_word w = true ↔ w ≠ "" ∧ no_space w = true.
Proof.
  destruct w as [|a w].
  - split; [done|]. by intros [? _].
  - cbn [is_word]. split; [done|]. by intros [_ ?].
Qed.

Lemma rev_app_nonempty (s t : string) : t ≠ "" → String.rev_app s t ≠ "".
Proof. revert t. induction s as [|a s IH]; intros t Ht; [done|]. simpl. by apply IH. Qed.

Lemma is_word_rev (acc : string) :
  acc ≠ "" → no_space acc = true → is_word (String.rev acc) = true.
Proof.
  intros Hne Hacc. apply is_word_spec. split.
  - unfold String.rev. destruct acc as [|a acc]; [done|]. simpl.
    by apply rev_app_nonempty.
  - unfold String.rev. rewrite no_space_all_chars in *.
    by rewrite all_chars_rev_app, Hacc.
Qed.

Lemma words_go_words cur (s : string) :
  (∀ acc, cur = Some acc → acc ≠ "" ∧ no_space acc = true) →
  Forall (λ w, is_word w = true) (String.words_go cur s).
Proof.
  revert cur. induction s as [|a s IH]; intros cur Hcur.
  - destruct cur as [acc|]; simpl; [|done].
    destruct (Hcur acc eq_refl). constructor; [by apply is_word_rev|done].
  - cbn [String.words_go]. destruct (Ascii.is_space a) eqn:Ha.
    + apply Forall_app. split; [|by apply IH].
      destruct cur as [acc|]; simpl; [|done].
      destruct (Hcur acc eq_refl). constructor; [by apply is_word_rev|done].
    + apply IH. intros acc' [= <-]. split; [by destruct cur|].
      destruct cur as [acc|]; simpl; rewrite Ha; simpl; [|done].
      by destruct (Hcur acc eq_refl).
Qed.

Lemma words_go_all_chars P cur (s : string) :
  all_chars P s = true →
  (∀ acc, cur = Some acc → all_chars P acc = true) →
  Forall (λ w, all_chars P w = true) (String.words_go cur s).
Proof.
  revert cur. induction s as [|a s IH]; intros cur Hs Hcur.
  - destruct cur as [acc|]; simpl; [|done].
    constructor; [|done]. unfold String.rev.
    by rewrite all_chars_rev_app, (Hcur acc eq_refl).
  - simpl in Hs. apply andb_true_iff in Hs as [Ha Hs].
    cbn [String.words_go]. destruct (Ascii.is_space a).
    + apply Forall_app. split; [|by apply IH].
      destruct cur as [acc|]; simpl; [|done].
      constructor; [|done]. unfold String.rev.
      by rewrite all_chars_rev_app, (Hcur acc eq_refl).
    + apply IH; [done|]. intros acc' [= <-].
      destruct cur as [acc|]; simpl; rewrite Ha; [|done].
      by rewrite (Hcur acc eq_refl).
Qed.

Lemma clean_word_intro (w : string) :
  all_chars (λ a, Ascii.is_space a || clean_char a) w = true →
  no_space w = true → clean_word w = true.
Proof.
  induction w as [|a w IH]; [done|]. simpl.
  intros [Ha Hw]%andb_true_iff [Hs Hw']%andb_true_iff.
  rewrite (IH Hw Hw'), andb_true_r.
  apply negb_true_iff in Hs. by rewrite Hs in Ha.
Qed.

Lemma text_to_list_clean (contents : string) :
  Forall (λ w, is_word w = true ∧ clean_word w = true) (text_to_list contents).
Proof.
  rewrite text_to_list_unfold. unfold String.words.
  pose proof (words_go_words None (string_map normalize_char contents)) as Hwords.
  pose proof (words_go_all_chars (λ a, Ascii.is_space a || clean_char a) None
                (string_map normalize_char contents)) as Hchars.
  apply Forall_and. split; [by apply Hwords|].
  eapply Forall_impl.
  - apply Forall_and. split; [apply Hwords; done|apply Hchars; [|done]].
    apply all_chars_string_map, normalize_char_clean.
  - intros w [Hw Hc]. apply is_word_spec in Hw as [_ Hw].
    by apply clean_word_intro.
Qed.

Lemma join_words_chars (ws : list string) :
  Forall (λ w, clean_word w = true) ws →
  all_chars (λ a, Ascii.is_space a || clean_char a) (join_words ws) = true.
Proof.
  induction 1 as [|w ws Hw _ IH]; [done|].
  cbn [join_words foldr]. fold (join_words ws).
  rewrite !all_chars_app, IH, andb_true_r.
  rewrite clean_word_all_chars in Hw.
  rewrite (all_chars_impl clean_char _ w); [done| |done].
  intros a ->. apply orb_true_r.
Qed.

(** X15. Every word that [text_to_list] returns is not empty and holds no
    white space, no punctuation character and no upper-case letter. *)
Theorem text_to_list_words (contents : string) (w : string) :
  w ∈ text_to_list contents → is_word w = true ∧ clean_word w = true.
Proof.
  intros Hw. pose proof (text_to_list_clean contents) as Hall.
  rewrite Forall_forall in Hall. by apply Hall.
Qed.

(** X16. Round trip between texts and word lists: reading the text of a
    list of clean words, with or without its last space, gives the list
    back; so [text_to_list] applied to the text of its own result returns
    that result. *)
Theorem text_to_list_join_words (ws : list string) :
  Forall (λ w, is_word w = true ∧ clean_word w = true) ws →
  text_to_list (join_words ws) = ws ∧
  text_to_list (rstrip (join_words ws)) = ws.
Proof.
  intros Hws. apply Forall_and in Hws as [Hwords Hclean].
  pose proof (join_words_chars ws Hclean) as Hchars.
  rewrite !text_to_list_unfold. split.
  - rewrite (string_map_fixed _ _ _ normalize_char_fixed Hchars).
    by apply words_join_words.
  - rewrite (string_map_fixed _ _ _ normalize_char_fixed
               (all_chars_rstrip _ _ Hchars)).
    by apply words_rstrip_join_words.
Qed.

(** ** From a list of words to a generated text *)

Lemma bigram_chain_adjacent bigrams (ws before after : list string) a b :
  bigram_chain bigrams ws → ws = before ++ a :: b :: after →
  follows_bigram bigrams a b.
Proof.
  revert ws. induction before as [|x before IH]; intros ws Hchain ->.
  - by destruct Hchain.
  - apply (IH (before ++ a :: b :: after)); [|done].
    cbn [app bigram_chain] in Hchain.
    destruct (before ++ a :: b :: after) eqn:Heq; [by destruct before|].
    by destruct Hchain.
Qed.

Lemma bigram_chain_in bigrams first (ws : list string) :
  bigram_chain bigrams (first :: ws) →
  ∀ w, w ∈ ws → ∃ a, follows_bigram bigrams a w.
Proof.
  revert first. induction ws as [|x ws IH]; intros first Hchain w Hw.
  - by apply elem_of_nil in Hw.
  - destruct Hchain as [Hfirst Hchain].
    apply elem_of_cons in Hw as [->|Hw]; [by exists first|].
    by apply (IH x).
Qed.

Lemma built_bigrams_follows word_list a b :
  follows_bigram (normalized <$> count_all (zip word_list (drop 1 word_list))) a b ↔
  ∃ before after, word_list = before ++ a :: b :: after.
Proof. unfold follows_bigram. by rewrite built_model_follows, adjacent_pairs. Qed.

Lemma built_bigrams_key word_list w :
  is_Some ((normalized <$> count_all (zip word_list (drop 1 word_list))) !! w) ↔
  w ∈ take (length word_list - 1) word_list.
Proof.
  rewrite <- elem_of_dom, built_model_dom, pairs_contexts.
  apply elem_of_list_to_set.
Qed.

Lemma built_bigrams_key_successor word_list before w x after :
  word_list = before ++ w :: x :: after →
  is_Some ((normalized <$> count_all (zip word_list (drop 1 word_list))) !! w).
Proof.
  intros Hwl.
  assert (Hfollows : follows_bigram
            (normalized <$> count_all (zip word_list (drop 1 word_list))) w x).
  { apply built_bigrams_follows. by exists before, after. }
  destruct Hfollows as (d & Hd & _). by exists d.
Qed.

Lemma built_bigrams_closed word_list :
  (∀ w, last word_list = Some w → w ∈ take (length word_list - 1) word_list) →
  closed_model (normalized <$> count_all (zip word_list (drop 1 word_list))).
Proof.
  intros Hlast w (context & d & Hd & Hw).
  assert (Hfollows : follows_bigram
            (normalized <$> count_all (zip word_list (drop 1 word_list))) context w)
    by by exists d.
  apply built_bigrams_follows in Hfollows as (before & after & Hwl).
  destruct after as [|x after].
  - apply built_bigrams_key, Hlast. rewrite Hwl.
    change (before ++ [context; w]) with (before ++ [context] ++ [w]).
    by rewrite app_assoc, last_snoc.
  - apply (built_bigrams_key_successor _ (before ++ [context]) w x after).
    by rewrite <- app_assoc.
Qed.

Lemma built_bigrams_word word_list w :
  model_word (normalized <$> count_all (zip word_list (drop 1 word_list))) w →
  w ∈ word_list.
Proof.
  intros (context & d & Hd & Hw).
  assert (Hfollows : follows_bigram
            (normalized <$> count_all (zip word_list (drop 1 word_list))) context w)
    by by exists d.
  apply built_bigrams_follows in Hfollows as (before & after & ->).
  apply elem_of_app. right. apply elem_of_cons. right. apply list_elem_of_here.
Qed.

Lemma built_trigrams_follows word_list a b c :
  (∃ d, (normalized <$> count_all (zip3 word_list)) !! (a, b) = Some d ∧ c ∈ dom d) ↔
  ∃ before after, word_list = before ++ a :: b :: c :: after.
Proof. by rewrite built_model_follows, adjacent_triples. Qed.

Lemma built_trigrams_word word_list w :
  model_word (normalized <$> count_all (zip3 word_list)) w →
  ∃ before a b after, word_list = before ++ a :: b :: w :: after.
Proof.
  intros ([a b] & d & Hd & Hw).
  destruct (proj1 (built_trigrams_follows word_list a b w)) as (before & after & ->).
  { by exists d. }
  by exists before, a, b, after.
Qed.

Lemma trigram_chain_in bigrams trigrams x y (ws : list string) :
  trigram_chain bigrams trigrams (x :: y :: ws) →
  ∀ w, w ∈ ws → ∃ a b, follows_trigram bigrams trigrams a b w.
Proof.
  revert x y. induction ws as [|z ws IH]; intros x y Hchain w Hw.
  - by apply elem_of_nil in Hw.
  - destruct Hchain as [Hfirst Hchain].
    apply elem_of_cons in Hw as [->|Hw]; [by exists x, y|].
    by apply (IH y z).
Qed.

Lemma built_models_closed word_list w :
  (∀ w, last word_list = Some w → w ∈ take (length word_list - 1) word_list) →
  model_word (normalized <$> count_all (zip3 word_list)) w ∨
  model_word (normalized <$> count_all (zip word_list (drop 1 word_list))) w →
  is_Some ((normalized <$> count_all (zip word_list (drop 1 word_list))) !! w).
Proof.
  intros Hlast [Hw|Hw].
  - apply built_trigrams_word in Hw as (before & a & b & after & Hwl).
    apply (built_bigrams_closed _ Hlast).
    assert (Hfollows : follows_bigram
              (normalized <$> count_all (zip word_list (drop 1 word_list))) b w).
    { apply built_bigrams_follows. exists (before ++ [a]), after.
      by rewrite <- app_assoc. }
    destruct Hfollows as (d & Hd & Hin). by exists b, d.
  - by apply built_bigrams_closed.
Qed.

(** Every distribution of a built model has an item. *)
Lemma built_model_successor `{Countable K} (observations : list (K * string))
    context distribution :
  (normalized <$> count_all observations) !! context = Some distribution →
  ∃ w, w ∈ dom distribution.
Proof.
  rewrite lookup_fmap.
  destruct (count_all observations !! context) as [table|] eqn:Htable; [|done].
  intros [= <-].
  destruct (count_all_tables observations context table Htable) as [Hne _].
  destruct (map_choose _ Hne) as (w & c & Hw). exists w.
  unfold normalized. rewrite dom_fmap. apply elem_of_dom. by eexists.
Qed.

Lemma random_unigram_text_reads unigrams num_words i s j :
  random_unigram_text unigrams num_words i = Ok (s, j) →
  j = (i + Z.to_nat num_words)%nat.
Proof.
  unfold random_unigram_text. intros Hrun.
  apply M_bind_Ok in Hrun as (text & i' & Hloop & Hrun).
  injection Hrun as <- <-.
  by apply unigram_text_loop_Ok in Hloop as (ws & Hlen & -> & Hws & ->).
Qed.

Lemma calculate_unigrams_Ok word_list model :
  calculate_unigrams word_list = Ok model →
  model = normalized (count_unigrams ∅ word_list).
Proof.
  unfold calculate_unigrams. destruct word_list as [|w word_list].
  - cbn [count_unigrams]. rewrite counts_to_probabilities_empty.
    intros [= <-]. unfold normalized. by rewrite fmap_empty.
  - rewrite (counts_to_probabilities_count_table _
               (count_unigrams_table (w :: word_list) ltac:(done))).
    case_bool_decide; [|done]. by intros [= <-].
Qed.

Lemma calculate_unigrams_dom word_list model w :
  calculate_unigrams word_list = Ok model → w ∈ dom model → w ∈ word_list.
Proof.
  intros ->%calculate_unigrams_Ok. unfold normalized. rewrite dom_fmap.
  intros [c Hc]%elem_of_dom.
  pose proof (count_unigrams_positive ∅ word_list (map_Forall_empty _) w c Hc) as Hpos.
  pose proof (count_unigrams_lookup ∅ word_list w) as Hw.
  rewrite Hc, lookup_empty in Hw. simpl in Hpos, Hw.
  apply occurrences_pos. lia.
Qed.

Lemma unigram_text_of_word_list word_list model num_words i :
  calculate_unigrams word_list = Ok model →
  (word_list = [] → 0 < num_words →
   random_unigram_text model num_words i = Err AssertionError) ∧
  (∀ e, random_unigram_text model num_words i = Err e → e = AssertionError) ∧
  (∀ s j, random_unigram_text model num_words i = Ok (s, j) →
     ∃ ws,
       s = rstrip (join_words ws) ∧ j = (i + Z.to_nat num_words)%nat ∧
       length ws = Z.to_nat num_words ∧
       Forall (λ w, w ∈ word_list) ws).
Proof.
  intros Hmodel. split; [|split].
  - intros -> Hn. apply calculate_unigrams_Ok in Hmodel as ->.
    cbn [count_unigrams]. unfold normalized. rewrite fmap_empty.
    unfold random_unigram_text.
    destruct (Z.to_nat num_words) as [|n] eqn:Hnat; [lia|].
    cbn [unigram_text_loop]. unfold mbind, M_bind.
    by rewrite select_random_unfold, sum_near_one_empty.
  - apply random_unigram_text_Err.
  - intros s j Hrun. pose proof (random_unigram_text_reads _ _ _ _ _ Hrun) as ->.
    apply random_unigram_text_Ok in Hrun as (ws & Hlen & -> & Hws).
    exists ws. repeat split; [done|].
    eapply Forall_impl; [exact Hws|]. intros w Hw.
    by eapply calculate_unigrams_dom.
Qed.


Lemma bigram_text_of_word_list word_list model first_word num_words i :
  calculate_bigrams word_list = Ok model →
  (¬ (∃ before w after, word_list = before ++ first_word :: w :: after) →
   random_bigram_text first_word model num_words i = Err KeyError) ∧
  ((∃ before w after, word_list = before ++ first_word :: w :: after) →
   (∀ w, last word_list = Some w → w ∈ take (length word_list - 1) word_list) →
   ∀ e, random_bigram_text first_word model num_words i = Err e →
        e = AssertionError) ∧
  (∀ s j, random_bigram_text first_word model num_words i = Ok (s, j) →
     ∃ ws,
       s = rstrip (join_words (first_word :: ws)) ∧ j = (i + length ws)%nat ∧
       length ws = S (Z.to_nat (num_words - 2)) ∧
       Forall (λ w, w ∈ word_list) ws ∧
       ∀ a b before after, first_word :: ws = before ++ a :: b :: after →
         ∃ before' after', word_list = before' ++ a :: b :: after').
Proof.
  intros ->%calculate_bigrams_Ok. split; [|split].
  - intros Hnone. unfold random_bigram_text, mbind, M_bind, lift, getitem.
    destruct (_ !! first_word) as [d|] eqn:Hd; [|done].
    exfalso. apply Hnone.
    destruct (built_model_successor _ _ _ Hd) as [w Hw].
    destruct (proj1 (built_bigrams_follows word_list first_word w))
      as (before & after & ->).
    { by exists d. }
    by exists before, w, after.
  - intros (before & w & after & Hwl) Hlast e Hrun.
    destruct (random_bigram_text_Err _ _ _ _ _ Hrun) as [-> | ->]; [|done].
    exfalso. revert Hrun. apply random_bigram_text_no_KeyError.
    + by apply built_bigrams_closed.
    + by eapply built_bigrams_key_successor.
  - intros s j Hrun.
    destruct (random_bigram_text_walk _ _ _ _ _ _ Hrun) as (ws & -> & Hlen & Hchain & ->).
    exists ws. split; [done|]. split; [done|]. split; [done|]. split.
    + apply Forall_forall. intros x Hx.
      destruct (bigram_chain_in _ _ _ Hchain x Hx) as (y & Hy).
      apply built_bigrams_follows in Hy as (b' & a' & ->).
      apply elem_of_app. right. apply elem_of_cons. right. apply list_elem_of_here.
    + intros a b before' after' Heq.
      apply built_bigrams_follows. by eapply bigram_chain_adjacent.
Qed.


Lemma trigram_text_of_word_list word_list bigrams trigrams first second num_words i :
  calculate_bigrams word_list = Ok bigrams →
  calculate_trigrams word_list = Ok trigrams →
  (¬ (∃ before w after, word_list = before ++ first :: second :: w :: after) →
   random_trigram_text first second bigrams trigrams num_words i = Err KeyError) ∧
  ((∃ before w after, word_list = before ++ first :: second :: w :: after) →
   (∀ w, last word_list = Some w → w ∈ take (length word_list - 1) word_list) →
   ∀ e, random_trigram_text first second bigrams trigrams num_words i = Err e →
        e = AssertionError) ∧
  (∀ s j, random_trigram_text first second bigrams trigrams num_words i = Ok (s, j) →
     ∃ ws,
       s = rstrip (join_words (first :: second :: ws)) ∧
       j = (i + 1 + length ws)%nat ∧
       length ws = Z.to_nat (num_words - 2) ∧
       Forall (λ w, w ∈ word_list) ws).
Proof.
  intros ->%calculate_bigrams_Ok ->%calculate_trigrams_Ok. split; [|split].
  - intros Hnone. unfold random_trigram_text, mbind, M_bind, lift, getitem.
    destruct (_ !! (first, second)) as [d|] eqn:Hd; [|done].
    exfalso. apply Hnone.
    destruct (built_model_successor _ _ _ Hd) as [w Hw].
    destruct (proj1 (built_trigrams_follows word_list first second w))
      as (before & after & ->).
    { by exists d. }
    by exists before, w, after.
  - intros (before & w & after & Hwl) Hlast e Hrun.
    destruct (random_trigram_text_Err _ _ _ _ _ _ _ Hrun) as [-> | ->]; [|done].
    exfalso. revert Hrun. apply random_trigram_text_no_KeyError.
    + intros x Hx. by apply built_models_closed.
    + destruct (proj2 (built_trigrams_follows word_list first second w))
        as (d & Hd & _); [by exists before, after|]. by exists d.
    + apply (built_bigrams_key_successor _ (before ++ [first]) second w after).
      by rewrite <- app_assoc.
  - intros s j Hrun.
    destruct (random_trigram_text_walk _ _ _ _ _ _ _ _ Hrun)
      as (hidden & ws & -> & Hlen & _ & Hchain & ->).
    exists ws. split; [done|]. split; [done|]. split; [done|].
    apply Forall_forall. intros x Hx.
    destruct (trigram_chain_in _ _ _ _ _ Hchain x Hx) as (a & b & Hfollows).
    unfold follows_trigram in Hfollows.
    destruct (_ !! (a, b)) as [d|] eqn:Hd.
    + destruct (proj1 (built_trigrams_follows word_list a b x))
        as (before' & after' & ->); [by exists d|].
      apply elem_of_app. right. do 2 (apply elem_of_cons; right).
      apply list_elem_of_here.
    + apply built_bigrams_follows in Hfollows as (before' & after' & ->).
      apply elem_of_app. right. apply elem_of_cons. right. apply list_elem_of_here.
Qed.


(** ** The entry points *)

Lemma text_to_list_is_word huck (ws : list string) :
  Forall (λ w, w ∈ text_to_list huck) ws → Forall (λ w, is_word w = true) ws.
Proof.
  intros Hws. eapply Forall_impl; [exact Hws|]. intros w Hw.
  pose proof (text_to_list_clean huck) as Hall. rewrite Forall_forall in Hall.
  by apply Hall.
Qed.

Lemma unigram_main_unfold huck i :
  unigram_main huck i =
    match calculate_unigrams (text_to_list huck) with
    | Ok unigrams => random_unigram_text unigrams 100 i
    | Err e => Err e
    end.
Proof.
  unfold unigram_main, mbind, M_bind, lift. cbn zeta.
  by destruct (calculate_unigrams _).
Qed.

Lemma bigram_main_unfold huck i :
  bigram_main huck i =
    match calculate_bigrams (text_to_list huck) with
    | Ok bigrams => random_bigram_text "the" bigrams 100 i
    | Err e => Err e
    end.
Proof.
  unfold bigram_main, mbind, M_bind, lift. cbn zeta.
  by destruct (calculate_bigrams _).
Qed.

Lemma trigram_main_unfold huck i :
  trigram_main huck i =
    match calculate_bigrams (text_to_list huck) with
    | Ok bigrams =>
        match calculate_trigrams (text_to_list huck) with
        | Ok trigrams => random_trigram_text "there" "is" bigrams trigrams 100 i
        | Err e => Err e
        end
    | Err e => Err e
    end.
Proof.
  unfold trigram_main, mbind, M_bind, lift. cbn zeta.
  destruct (calculate_bigrams _); [|done].
  by destruct (calculate_trigrams _).
Qed.

Lemma calculate_unigrams_bounded word_list :
  Z.of_nat (length word_list) < float_overflow →
  ∃ model, calculate_unigrams word_list = Ok model.
Proof.
  intros Hlen. destruct word_list as [|w word_list].
  - exists ∅. apply counts_to_probabilities_empty.
  - destruct (calculate_unigrams_mle (w :: word_list)) as (model & Hmodel & _);
      [done|done|]. by exists model.
Qed.




End Ngrams.

(** * The program on concrete inputs *)

Lemma canonical_enum_perm V (d : gmap string V) :
  canonical_enum V d ≡ₚ map_to_list d.
Proof. reflexivity. Qed.

Lemma half_tape_range (i : nat) :
  fle float_zero (half_tape i) = true ∧ flt (half_tape i) float_one = true.
Proof. split; vm_compute; reflexivity. Qed.

Lemma near_one_tape_range (i : nat) :
  fle float_zero (near_one_tape i) = true ∧ flt (near_one_tape i) float_one = true.
Proof. split; vm_compute; reflexivity. Qed.

(** C1. With the models of [a b c d e], in which [c] is the only word that
    follows [a b], [random_trigram_text('a', 'b', bigrams, trigrams, 4)]
    returns [a b d e]: the word sampled before the loop, [c], is used as
    context but never appended to the text. *)
Theorem random_trigram_text_drops_first_sample :
  (bigrams ← lift (calculate_bigrams canonical_enum abcde);
   trigrams ← lift (calculate_trigrams canonical_enum abcde);
   random_trigram_text canonical_enum half_tape "a" "b" bigrams trigrams 4) 0%nat
  = Ok ("a b d e", 3%nat).
Proof. vm_compute. reflexivity. Qed.

(** C3. With the models of [a b c], [random_trigram_text('b', 'c', bigrams,
    trigrams, n)] fails with [KeyError] for every [n]: the pair [('b', 'c')]
    is not a key of the trigram model and the sample taken before the loop
    does not fall back to [bigrams['b']], which exists. *)
Theorem random_trigram_text_first_sample_no_fallback (n : Z) (i : nat) :
  (bigrams ← lift (calculate_bigrams canonical_enum ["a"; "b"; "c"]);
   trigrams ← lift (calculate_trigrams canonical_enum ["a"; "b"; "c"]);
   random_trigram_text canonical_enum half_tape "b" "c" bigrams trigrams n) i
  = Err KeyError ∧
  (bigrams ← lift (calculate_bigrams canonical_enum ["a"; "b"; "c"]);
   lift (getitem bigrams "b")) i = Ok ({[ "c" := float_one ]}, i).
Proof. split; vm_compute; reflexivity. Qed.

(** C5, counterexample. A count table that is not empty, has no negative
    count and a positive total, on which [counts_to_probabilities] raises
    OverflowError: the only count is 2^1024.  And on ten counts of 1, the
    table of the unigram model of ten different words, the float sum of
    the values that are returned is 1 - 2^-53. *)
Lemma counts_to_probabilities_huge_total_rejected :
  counts_huge ≠ ∅ ∧
  map_Forall (λ _ c, 0 ≤ c) counts_huge ∧
  0 < total_count counts_huge ∧
  counts_to_probabilities canonical_enum counts_huge = Err OverflowError ∧
  (probabilities ← counts_to_probabilities canonical_enum
                      (count_unigrams ∅ ten_words);
   Ok (fsum (canonical_enum float probabilities).*2)) = Ok below_one.
Proof.
  split; [apply insert_non_empty|]. split; [|split; [|split]].
  4:{ vm_compute. reflexivity. }
  - intros k c Hc. unfold counts_huge in Hc.
    apply lookup_singleton_Some in Hc as [_ <-]. vm_compute. discriminate.
  - vm_compute. reflexivity.
  - vm_compute. reflexivity.
Qed.

(** C6, counterexample. The four values 0.5, 2^-54, 2^-54 and 0.5 - 2^-53
    are not negative and sum to 1; enumerated in the order of
    [canonical_enum] their running float total ends at 1 - 2^-53, and with
    that draw [select_random] reaches the final [assert False]; on the same
    items in the opposite order the loop returns a key.  The same happens
    on the unigram model of ten different words, whose ten values
    [1 / float(10)] add up to 1 - 2^-53 in every order. *)
Lemma select_random_falls_through :
  valid_distribution distribution_tiny ∧
  (fle float_zero below_one = true ∧ flt below_one float_one = true) ∧
  select_random canonical_enum near_one_tape distribution_tiny 0%nat
    = Err AssertionError ∧
  select_loop below_one float_zero (reverse (map_to_list distribution_tiny))
    = Ok "a" ∧
  (unigrams ← lift (calculate_unigrams canonical_enum ten_words);
   select_random canonical_enum near_one_tape unigrams) 0%nat
    = Err AssertionError.
Proof.
  split; [split|split; [split|split; [|split]]].
  - apply map_Forall_to_list. vm_compute. repeat constructor.
  - vm_compute. reflexivity.
  - vm_compute. reflexivity.
  - vm_compute. reflexivity.
  - vm_compute. reflexivity.
  - vm_compute. reflexivity.
  - vm_compute. reflexivity.
Qed.

(** C7, counterexample. With the bigram model of the docstrings,
    [random_bigram_text('i', model, 1)] returns a text of two words. *)
Lemma random_bigram_text_one_word_accepted :
  (model ← lift (calculate_bigrams canonical_enum cogito);
   random_bigram_text canonical_enum half_tape "i" model 1) 0%nat
  = Ok ("i think", 1%nat).
Proof. vm_compute. reflexivity. Qed.


(** C10, counterexample. In the bigram model of a list in which [s] is
    followed once by each of ten words, [s] is a key, with ten items of
    value [1 / float(10)]; with the draw 1 - 2^-53 the one sample of
    [random_bigram_text('s', model, 2)] reaches the final [assert False]
    and no text is returned. *)
Lemma random_bigram_text_sample_fails :
  (model ← lift (calculate_bigrams canonical_enum s_ten_words);
   distribution ← lift (getitem model "s");
   mret (length (map_to_list distribution))) 0%nat = Ok (10%nat, 0%nat) ∧
  (model ← lift (calculate_bigrams canonical_enum s_ten_words);
   random_bigram_text canonical_enum near_one_tape "s" model 2) 0%nat
  = Err AssertionError.
Proof. split; vm_compute; reflexivity. Qed.

(** * The theorems at concrete inputs *)

Lemma trigram_fallback_uses_older_word_witness :
  trigram_text_step canonical_enum half_tape bigrams_abcabd trigrams_abcabd
    (TrigramState "a" "b" "d" "a b ") 0%nat
  = Ok (TrigramState "b" "d" "d" "a b d ", 1%nat).
Proof.
  destruct (trigram_fallback_uses_older_word canonical_enum half_tape
              bigrams_abcabd trigrams_abcabd "a" "b" "d" "a b " 0%nat) as [-> _].
  - vm_compute. reflexivity.
  - vm_compute. reflexivity.
Defined.

Lemma calculate_ngrams_refine_specification_witness :
  (∃ model, calculate_bigrams canonical_enum cogito = Ok model ∧
            build_bigram canonical_enum cogito = Ok model) ∧
  (∃ model, calculate_trigrams canonical_enum cogito = Ok model ∧
            build_trigram canonical_enum cogito = Ok model).
Proof.
  destruct (calculate_ngrams_refine_specification canonical_enum canonical_enum_perm
              cogito) as (_ & _ & Hmodels).
  apply Hmodels. vm_compute. reflexivity.
Defined.

Lemma counts_9_1_nonneg : map_Forall (λ _ c, 0 ≤ c) counts_9_1.
Proof.
  intros k c Hc. unfold counts_9_1 in Hc.
  apply lookup_insert_Some in Hc as [[_ <-]|[_ Hc]]; [simpl; lia|].
  apply lookup_singleton_Some in Hc as [_ <-]. simpl. lia.
Qed.



Lemma short_requests_are_not_rejected_witness :
  random_unigram_text canonical_enum half_tape distribution_9_1 0 0%nat
    = Ok ("", 0%nat) ∧
  random_bigram_text canonical_enum half_tape "i" bigrams_cogito 1 0%nat
    = random_bigram_text canonical_enum half_tape "i" bigrams_cogito 2 0%nat ∧
  random_trigram_text canonical_enum half_tape "a" "b" bigrams_abcabd trigrams_abcabd
      (-3) 0%nat
    = random_trigram_text canonical_enum half_tape "a" "b" bigrams_abcabd trigrams_abcabd
        2 0%nat.
Proof.
  destruct (short_requests_are_not_rejected canonical_enum half_tape)
    as (Hunigram & Hbigram & Htrigram).
  split; [|split].
  - apply Hunigram. lia.
  - apply Hbigram. lia.
  - apply Htrigram. lia.
Defined.


Lemma distribution_9_1_words (w : string) :
  w ∈ dom distribution_9_1 → is_word w = true.
Proof.
  unfold distribution_9_1. rewrite dom_insert_L, dom_singleton_L.
  intros [->%elem_of_singleton| ->%elem_of_singleton]%elem_of_union; reflexivity.
Qed.

Lemma bigrams_cogito_words : model_of_words bigrams_cogito.
Proof.
  intros w (context & distribution & Hctx & Hw). unfold bigrams_cogito in Hctx.
  repeat (apply lookup_insert_Some in Hctx as [[_ <-]|[_ Hctx]];
    [rewrite ?dom_insert_L, dom_singleton_L in Hw;
     repeat (apply elem_of_union in Hw as [Hw|Hw]);
     apply elem_of_singleton in Hw as ->; reflexivity|]).
  apply lookup_singleton_Some in Hctx as [_ <-].
  rewrite dom_singleton_L in Hw. by apply elem_of_singleton in Hw as ->.
Qed.

Lemma generated_text_length_witness :
  (∃ tokens, "a a a" = rstrip (join_words tokens) ∧ Z.of_nat (length tokens) = 3 ∧
             String.words "a a a" = tokens) ∧
  (∃ tokens, "i think therefore i think" = rstrip (join_words tokens) ∧
             Z.of_nat (length tokens) = 5 ∧
             String.words "i think therefore i think" = tokens) ∧
  (∃ tokens, "a b d" = rstrip (join_words tokens) ∧ Z.of_nat (length tokens) = 3).
Proof.
  destruct (generated_text_length canonical_enum canonical_enum_perm half_tape)
    as (Hunigram & Hbigram & Htrigram).
  split; [|split].
  - destruct (Hunigram distribution_9_1 3 0%nat "a a a" 3%nat)
      as (tokens & Htext & Hlen & Hwords); [lia|vm_compute; reflexivity|].
    exists tokens. repeat split; [done..|].
    apply Hwords, distribution_9_1_words.
  - destruct (Hbigram "i" bigrams_cogito 5 0%nat "i think therefore i think" 4%nat)
      as (tokens & Htext & Hlen & Hwords); [lia|vm_compute; reflexivity|].
    exists tokens. repeat split; [done..|].
    apply Hwords; [reflexivity|apply bigrams_cogito_words].
  - destruct (Htrigram "a" "b" bigrams_abcabd trigrams_abcabd 3 0%nat "a b d" 2%nat)
      as (tokens & Htext & Hlen & _); [lia|vm_compute; reflexivity|].
    by exists tokens.
Defined.


(** * The further properties at concrete inputs *)

Lemma covers_draws_one (w : string) (p : float) :
  p = float_one → covers_draws canonical_enum {[ w := p ]}.
Proof.
  intros ->. unfold covers_draws, sum_near_one, canonical_enum.
  rewrite map_to_list_singleton. split; vm_compute; reflexivity.
Qed.

Lemma unigrams_abab_covers : covers_draws canonical_enum unigrams_abab.
Proof. split; vm_compute; reflexivity. Qed.

Lemma bigrams_abab_covers : covering_model canonical_enum bigrams_abab.
Proof.
  intros k d Hd. unfold bigrams_abab in Hd.
  apply lookup_insert_Some in Hd as [[_ <-]|[_ Hd]];
    [apply covers_draws_one; vm_compute; reflexivity|].
  apply lookup_singleton_Some in Hd as [_ <-].
  apply covers_draws_one. vm_compute. reflexivity.
Qed.

Lemma trigrams_abab_covers : covering_model canonical_enum trigrams_abab.
Proof.
  intros k d Hd. unfold trigrams_abab in Hd.
  apply lookup_insert_Some in Hd as [[_ <-]|[_ Hd]];
    [apply covers_draws_one; vm_compute; reflexivity|].
  apply lookup_singleton_Some in Hd as [_ <-].
  apply covers_draws_one. vm_compute. reflexivity.
Qed.

Lemma bigrams_abab_words (w : string) :
  model_word bigrams_abab w → w = "a" ∨ w = "b".
Proof.
  intros (context & d & Hd & Hw). unfold bigrams_abab in Hd.
  apply lookup_insert_Some in Hd as [[_ <-]|[_ Hd]].
  - rewrite dom_singleton_L in Hw. apply elem_of_singleton in Hw. by right.
  - apply lookup_singleton_Some in Hd as [_ <-].
    rewrite dom_singleton_L in Hw. apply elem_of_singleton in Hw. by left.
Qed.

Lemma trigrams_abab_words (w : string) :
  model_word trigrams_abab w → w = "a" ∨ w = "b".
Proof.
  intros (context & d & Hd & Hw). unfold trigrams_abab in Hd.
  apply lookup_insert_Some in Hd as [[_ <-]|[_ Hd]].
  - rewrite dom_singleton_L in Hw. apply elem_of_singleton in Hw. by left.
  - apply lookup_singleton_Some in Hd as [_ <-].
    rewrite dom_singleton_L in Hw. apply elem_of_singleton in Hw. by right.
Qed.

Lemma bigrams_abab_closed : closed_model bigrams_abab.
Proof. intros w [-> | ->]%bigrams_abab_words; by eexists. Qed.

Lemma models_abab_closed (w : string) :
  model_word trigrams_abab w ∨ model_word bigrams_abab w →
  is_Some (bigrams_abab !! w).
Proof.
  intros [[-> | ->]%trigrams_abab_words|[-> | ->]%bigrams_abab_words]; by eexists.
Qed.

Lemma calculate_unigrams_abab : calculate_unigrams canonical_enum abab = Ok unigrams_abab.
Proof. vm_compute. reflexivity. Qed.

Lemma calculate_bigrams_abab : calculate_bigrams canonical_enum abab = Ok bigrams_abab.
Proof. vm_compute. reflexivity. Qed.

Lemma calculate_trigrams_abab : calculate_trigrams canonical_enum abab = Ok trigrams_abab.
Proof. vm_compute. reflexivity. Qed.


Lemma select_random_rejects_bad_sum_witness :
  select_random canonical_enum half_tape distribution_half 0%nat = Err AssertionError ∧
  select_random canonical_enum half_tape ∅ 0%nat = Err AssertionError.
Proof.
  destruct (select_random_rejects_bad_sum canonical_enum canonical_enum_perm
              half_tape distribution_half 0%nat) as [Hbad Hempty].
  split; [|exact Hempty]. apply Hbad. vm_compute. reflexivity.
Defined.

Lemma select_random_skips_zero_witness :
  select_random canonical_enum half_tape distribution_zero 0%nat ≠ Ok ("a", 1%nat).
Proof.
  apply (select_random_skips_zero canonical_enum canonical_enum_perm
           half_tape half_tape_range distribution_zero 0%nat 1%nat "a" (ratio 0 1)).
  - vm_compute. reflexivity.
  - vm_compute. reflexivity.
Defined.

Lemma random_bigram_text_chain_witness :
  ∃ ws,
    "a b a b a" = rstrip (join_words ("a" :: ws)) ∧
    length ws = S (Z.to_nat (5 - 2)) ∧
    bigram_chain bigrams_abab ("a" :: ws) ∧
    4%nat = (0 + length ws)%nat.
Proof.
  apply (random_bigram_text_chain canonical_enum canonical_enum_perm half_tape
           "a" bigrams_abab 5 0%nat "a b a b a" 4%nat).
  vm_compute. reflexivity.
Defined.

Lemma random_trigram_text_chain_witness :
  ∃ hidden ws,
    "a b b a b" = rstrip (join_words ("a" :: "b" :: ws)) ∧
    length ws = Z.to_nat (5 - 2) ∧
    (∃ distribution, trigrams_abab !! ("a", "b") = Some distribution ∧
                     hidden ∈ dom distribution) ∧
    trigram_chain bigrams_abab trigrams_abab ("b" :: hidden :: ws) ∧
    4%nat = (0 + 1 + length ws)%nat.
Proof.
  apply (random_trigram_text_chain canonical_enum canonical_enum_perm half_tape
           "a" "b" bigrams_abab trigrams_abab 5 0%nat "a b b a b" 4%nat).
  vm_compute. reflexivity.
Defined.




Lemma calculate_ngrams_frequencies_witness :
  (∃ model, calculate_bigrams canonical_enum abab = Ok model ∧
     ∀ w0 w1, (model !! w0 ≫= (.!! w1)) =
       if decide (0 < occurrences (w0, w1) (zip abab (drop 1 abab)))
       then Some (fdiv (round_int (occurrences (w0, w1) (zip abab (drop 1 abab))))
                       (round_int (occurrences w0 (take (length abab - 1) abab))))
       else None) ∧
  (∃ model, calculate_trigrams canonical_enum abab = Ok model ∧
     ∀ w0 w1 w2, (model !! (w0, w1) ≫= (.!! w2)) =
       if decide (0 < occurrences (w0, w1, w2) (zip3 abab))
       then Some (fdiv (round_int (occurrences (w0, w1, w2) (zip3 abab)))
                       (round_int (occurrences (w0, w1)
                                     (take (length abab - 2)
                                        (zip abab (drop 1 abab))))))
       else None).
Proof.
  apply (calculate_ngrams_frequencies canonical_enum canonical_enum_perm abab).
  vm_compute. reflexivity.
Defined.

Lemma calculate_ngrams_support_witness :
  (∃ model, calculate_bigrams canonical_enum abab = Ok model ∧
     dom model = list_to_set (take (length abab - 1) abab) ∧
     ∀ w0 w1, follows_bigram model w0 w1 ↔
              ∃ before after, abab = before ++ w0 :: w1 :: after) ∧
  (∃ model, calculate_trigrams canonical_enum abab = Ok model ∧
     ∀ w0 w1 w2,
       (∃ distribution, model !! (w0, w1) = Some distribution ∧ w2 ∈ dom distribution) ↔
       ∃ before after, abab = before ++ w0 :: w1 :: w2 :: after).
Proof.
  apply (calculate_ngrams_support canonical_enum canonical_enum_perm abab).
  vm_compute. reflexivity.
Defined.

Lemma calculate_ngrams_empty_witness :
  calculate_bigrams canonical_enum ["a"] = Ok ∅ ∧
  calculate_trigrams canonical_enum ["a"; "b"] = Ok ∅.
Proof.
  split.
  - apply (calculate_ngrams_empty canonical_enum canonical_enum_perm ["a"]).
    simpl. lia.
  - apply (calculate_ngrams_empty canonical_enum canonical_enum_perm ["a"; "b"]).
    simpl. lia.
Defined.


Lemma text_to_list_words_witness : is_word "cat" = true ∧ clean_word "cat" = true.
Proof.
  apply (text_to_list_words huck_the "cat").
  vm_compute. apply list_elem_of_further, list_elem_of_here.
Defined.

Lemma text_to_list_join_words_witness :
  text_to_list (join_words ["the"; "cat"]) = ["the"; "cat"] ∧
  text_to_list (rstrip (join_words ["the"; "cat"])) = ["the"; "cat"].
Proof.
  apply (text_to_list_join_words ["the"; "cat"]).
  repeat constructor.
Defined.

Lemma last_abab_occurs (w : string) :
  last abab = Some w → w ∈ take (length abab - 1) abab.
Proof.
  intros [= <-]. simpl. apply list_elem_of_further, list_elem_of_here.
Qed.




Lemma huck_the_length :
  Z.of_nat (length (text_to_list huck_the)) < float_overflow.
Proof. vm_compute. reflexivity. Qed.

Lemma huck_there_length :
  Z.of_nat (length (text_to_list huck_there)) < float_overflow.
Proof. vm_compute. reflexivity. Qed.



